(** * GpxReader: distance, enclosed area and average deviation of two GPX tracks

    A shallow embedding of [src/GpxReader.py].

    Numbers.  The program computes with numpy [float64] values.  They are
    idealised here as real numbers: rounding is not modelled, and neither are
    signed zeros.  The one place where the special values of [float64]
    decide what the program does, the division of
    [calculate_av_deviation], returns a [float64] that can be infinite or
    not-a-number.  Where rounding can change a result by more than a
    rounding error (a remainder that rounds up to its divisor, a haversine
    term that rounds above 1, an azimuth next to the origin or to its
    antipode), ranges are stated closed and statements keep a margin from
    those places.

    Errors.  A Python exception is a value [Raise e] of the [result] type;
    the methods of the class are state transformers on the record
    [GpxReader] of its private fields. *)

From Stdlib Require Import Reals Lra Lia List ZArith.
Import ListNotations.
Local Open Scope R_scope.

(** ** Exceptions and the error monad *)

Inductive exn : Type :=
| IndexError      (* indexing an empty sequence *)
| AttributeError  (* a method the object does not have *)
| ValueError      (* shapely refusing a coordinate sequence *)
| TypeError.      (* an operand of the wrong type *)

Inductive result (A : Type) : Type :=
| Ok (a : A)
| Raise (e : exn).
Arguments Ok {A} a.
Arguments Raise {A} e.

Definition bind {A B : Type} (c : result A) (k : A -> result B) : result B :=
  match c with
  | Ok a => k a
  | Raise e => Raise e
  end.

Notation "x <- c ;; k" := (bind c (fun x => k))
  (at level 61, c at next level, right associativity).

(** ** The numpy functions the program imports *)

(** [deg2rad x] is [x * pi / 180]. *)
Definition deg2rad (x : R) : R := x * (PI / 180).

(** [arctan2 y x]: the angle of the point [(x, y)], in [(-pi, pi]], and [0]
    at the origin. *)
Definition arctan2 (y x : R) : R :=
  if Rlt_dec 0 x then atan (y / x)
  else if Rlt_dec x 0 then
         (if Rle_dec 0 y then atan (y / x) + PI else atan (y / x) - PI)
  else if Rlt_dec 0 y then PI / 2
  else if Rlt_dec y 0 then - (PI / 2)
  else 0.

(** [x % y] on floats: the remainder of the floored division, which has the
    sign of [y].  Over the reals it lies in [[0, y)] for a positive [y]; the
    [float64] remainder can round up to [y] itself, so ranges that rest on
    it are stated closed at the upper end. *)
Definition py_mod (x y : R) : R := x - IZR (Zfloor (x / y)) * y.

(** [x[0]] and [x[-1]] on a sequence. *)
Definition getitem_first {A : Type} (l : list A) : result A :=
  match l with
  | [] => Raise IndexError
  | x :: _ => Ok x
  end.

Fixpoint getitem_last {A : Type} (l : list A) : result A :=
  match l with
  | [] => Raise IndexError
  | [x] => Ok x
  | _ :: l' => getitem_last l'
  end.

(** [diff a]: the differences [a[i+1] - a[i]]. *)
Fixpoint diff (a : list R) : list R :=
  match a with
  | x :: ((y :: _) as t) => (y - x) :: diff t
  | _ => []
  end.

(** An elementwise binary operation on two arrays. *)
Fixpoint elementwise (f : R -> R -> R) (a b : list R) : list R :=
  match a, b with
  | x :: a', y :: b' => f x y :: elementwise f a' b'
  | _, _ => []
  end.

(** The builtin [sum]: a left fold from [0]. *)
Definition sum (a : list R) : R := fold_left Rplus a 0.

(** The value of a [float64] division. *)
Inductive float64 : Type :=
| Finite (x : R)
| PosInf
| NegInf
| NaN.

(** numpy's true division does not raise: a zero divisor gives an infinity,
    or not-a-number when the dividend is zero too (with a warning on the
    error stream). *)
Definition np_truediv (x y : R) : float64 :=
  if Req_dec_T y 0 then
    (if Req_dec_T x 0 then NaN
     else if Rlt_dec 0 x then PosInf else NegInf)
  else Finite (x / y).

(** ** The data *)

(** A point of a parsed track segment. *)
Record GPXTrackPoint : Type := mkPoint { longitude : R; latitude : R }.

(** The private fields of the class. *)
Record GpxReader : Type := mkReader {
  segment_line : list GPXTrackPoint;      (* __segment[0].points *)
  segment_mission : list GPXTrackPoint;   (* __segment[1].points *)
  lon_lat_line : list (R * R);
  lon_lat_mission : list (R * R);
  lon_lat_polygon : list (R * R);
  lon_polygon : list R;
  lat_polygon : list R;
  earth_radius : R;
  area : option R;
  distance : option R;
  av_deviation : option float64
}.

Definition lon_lat (coords : GPXTrackPoint) : R * R :=
  (longitude coords, latitude coords).

(** ** read_segments *)

(** The two files are taken as already parsed: [line] and [mission] are the
    points of the first segment of the first track of each.  The loops of
    the method append to the lists, which start empty. *)
Definition read_segments (self : GpxReader)
    (line mission : list GPXTrackPoint) : GpxReader :=
  let lon_lat_line1 := lon_lat_line self ++ map lon_lat line in
  let lon_lat_polygon1 := lon_lat_polygon self ++ map lon_lat line in
  let lon_lat_line2 := lon_lat_line1 ++ map lon_lat (rev line) in
  let lon_lat_mission1 := lon_lat_mission self ++ map lon_lat mission in
  let lon_lat_mission2 := lon_lat_mission1 ++ map lon_lat (rev mission) in
  let lon_lat_polygon2 := lon_lat_polygon1 ++ map lon_lat (rev mission) in
  let lon_lat_polygon3 := lon_lat_polygon2 ++ map lon_lat (firstn 1 line) in
  {| segment_line := line;
     segment_mission := mission;
     lon_lat_line := lon_lat_line2;
     lon_lat_mission := lon_lat_mission2;
     lon_lat_polygon := lon_lat_polygon3;
     lon_polygon := lon_polygon self ++ map fst lon_lat_polygon3;
     lat_polygon := lat_polygon self ++ map snd lon_lat_polygon3;
     earth_radius := earth_radius self;
     area := area self;
     distance := distance self;
     av_deviation := av_deviation self |}.

(** ** calculate_line_distance *)

(** Lines 100 to 108: the haversine formula on two positions in radians. *)
Definition haversine (lat_1 lon_1 lat_2 lon_2 radius : R) : R :=
  let dlon := lon_2 - lon_1 in
  let dlat := lat_2 - lat_1 in
  let a := sin (dlat / 2) ^ 2 + cos lat_1 * cos lat_2 * sin (dlon / 2) ^ 2 in
  let c := 2 * arctan2 (sqrt a) (sqrt (1 - a)) in
  radius * c.

Definition line_distance (points : list GPXTrackPoint) (radius : R)
  : result R :=
  first <- getitem_first points ;;
  last <- getitem_last points ;;
  let lat_1 := deg2rad (latitude first) in
  let lat_2 := deg2rad (latitude last) in
  let lon_1 := deg2rad (longitude first) in
  let lon_2 := deg2rad (longitude last) in
  Ok (haversine lat_1 lon_1 lat_2 lon_2 radius).

Definition set_distance (self : GpxReader) (d : R) : GpxReader :=
  {| segment_line := segment_line self;
     segment_mission := segment_mission self;
     lon_lat_line := lon_lat_line self;
     lon_lat_mission := lon_lat_mission self;
     lon_lat_polygon := lon_lat_polygon self;
     lon_polygon := lon_polygon self;
     lat_polygon := lat_polygon self;
     earth_radius := earth_radius self;
     area := area self;
     distance := Some d;
     av_deviation := av_deviation self |}.

Definition calculate_line_distance (self : GpxReader) : result GpxReader :=
  d <- line_distance (segment_line self) (earth_radius self) ;;
  Ok (set_distance self d).

(** ** calculate_area *)

(** [deg2rad] of a list is a numpy array, and a numpy array has no [append]
    method: looking the attribute up raises, before the argument is
    evaluated. *)
Definition ndarray_append (a : list R) : result (R -> list R) :=
  Raise AttributeError.

(** Lines 121 to 124. *)
Definition close_polygon (lats lons : list R) : result (list R * list R) :=
  first <- getitem_first lats ;;
  last <- getitem_last lats ;;
  if Req_dec_T first last then Ok (lats, lons)
  else
    append_lats <- ndarray_append lats ;;
    let lats' := append_lats first in
    append_lons <- ndarray_append lons ;;
    lon0 <- getitem_first lons ;;
    Ok (lats', append_lons lon0).

(** Lines 126 to 128, elementwise. *)
Definition colatitude (lat lon : R) : R :=
  let a := sin (lat / 2) ^ 2 + cos lat * sin (lon / 2) ^ 2 in
  2 * arctan2 (sqrt a) (sqrt (1 - a)).

Definition colatitudes (lats lons : list R) : list R :=
  elementwise colatitude lats lons.

(** Line 131, elementwise. *)
Definition azimuth (lat lon : R) : R :=
  py_mod (arctan2 (cos lat * sin lon) (sin lat)) (2 * PI).

Definition azimuths (lats lons : list R) : list R :=
  elementwise azimuth lats lons.

(** Lines 135 and 136. *)
Definition normalise (d : R) : R := py_mod (d + PI) (2 * PI) - PI.

Definition azimuth_deltas (az : list R) : list R := map normalise (diff az).

(** Lines 138 and 139. *)
Definition mid_colatitudes (colat : list R) : list R :=
  let deltas := map (fun d => d / 2) (diff colat) in
  elementwise Rplus (removelast colat) deltas.

(** Line 142. *)
Definition integrands (colat daz : list R) : list R :=
  elementwise (fun c d => (1 - cos c) * d) colat daz.

(** The sum of the integrands of the arrays in radians. *)
Definition line_integral (lats lons : list R) : R :=
  let colat := colatitudes lats lons in
  let az := azimuths lats lons in
  let daz := azimuth_deltas az in
  let colat := mid_colatitudes colat in
  sum (integrands colat daz).

(** Lines 145 to 149. *)
Definition area_of_integral (s radius : R) : R :=
  let area := Rabs s / (4 * PI) in
  let area := Rmin area (1 - area) in
  area * 4 * PI * radius ^ 2.

(** The body of the method, on the two coordinate lists in degrees.  The
    two lists have the same length: [read_segments] fills them together. *)
Definition polygon_area (lat_polygon lon_polygon : list R) (radius : R)
  : result R :=
  let lats := map deg2rad lat_polygon in
  let lons := map deg2rad lon_polygon in
  closed <- close_polygon lats lons ;;
  let '(lats, lons) := closed in
  Ok (area_of_integral (line_integral lats lons) radius).

Definition set_area (self : GpxReader) (a : R) : GpxReader :=
  {| segment_line := segment_line self;
     segment_mission := segment_mission self;
     lon_lat_line := lon_lat_line self;
     lon_lat_mission := lon_lat_mission self;
     lon_lat_polygon := lon_lat_polygon self;
     lon_polygon := lon_polygon self;
     lat_polygon := lat_polygon self;
     earth_radius := earth_radius self;
     area := Some a;
     distance := distance self;
     av_deviation := av_deviation self |}.

Definition calculate_area (self : GpxReader) : result GpxReader :=
  a <- polygon_area (lat_polygon self) (lon_polygon self)
         (earth_radius self) ;;
  Ok (set_area self a).

(** The area of a ring of (longitude, latitude) pairs in degrees. *)
Definition ring_area (ring : list (R * R)) (radius : R) : result R :=
  polygon_area (map snd ring) (map fst ring) radius.

(** ** calculate_av_deviation *)

Definition set_av_deviation (self : GpxReader) (v : float64) : GpxReader :=
  {| segment_line := segment_line self;
     segment_mission := segment_mission self;
     lon_lat_line := lon_lat_line self;
     lon_lat_mission := lon_lat_mission self;
     lon_lat_polygon := lon_lat_polygon self;
     lon_polygon := lon_polygon self;
     lat_polygon := lat_polygon self;
     earth_radius := earth_radius self;
     area := area self;
     distance := distance self;
     av_deviation := Some v |}.

(** Both fields hold a number when the method runs: the constructor calls
    it after the two methods that set them. *)
Definition calculate_av_deviation (self : GpxReader) : result GpxReader :=
  match area self, distance self with
  | Some a, Some d => Ok (set_av_deviation self (np_truediv a d))
  | _, _ => Raise TypeError
  end.

(** ** create_polygons and the constructor *)

Section Constructor.

(** shapely's [Polygon] is not part of the repository.  All the program
    needs of it here is whether it accepts a coordinate sequence or raises
    on it. *)
Variable Polygon_accepts : list (R * R) -> bool.

Definition Polygon (coords : list (R * R)) : result unit :=
  if Polygon_accepts coords then Ok tt else Raise ValueError.

Definition create_polygons (self : GpxReader) : result GpxReader :=
  _ <- Polygon (lon_lat_line self) ;;
  _ <- Polygon (lon_lat_mission self) ;;
  _ <- Polygon (lon_lat_polygon self) ;;
  Ok self.

(** Lines 21 to 34. *)
Definition fresh (radius : R) : GpxReader :=
  {| segment_line := [];
     segment_mission := [];
     lon_lat_line := [];
     lon_lat_mission := [];
     lon_lat_polygon := [];
     lon_polygon := [];
     lat_polygon := [];
     earth_radius := radius;
     area := None;
     distance := None;
     av_deviation := None |}.

(** Lines 35 to 39. *)
Definition __init__ (line mission : list GPXTrackPoint) (radius : R)
  : result GpxReader :=
  let self := read_segments (fresh radius) line mission in
  self <- create_polygons self ;;
  self <- calculate_line_distance self ;;
  self <- calculate_area self ;;
  calculate_av_deviation self.

End Constructor.

(** The default of the [earth_radius] argument. *)
Definition default_earth_radius : R := 6378137.

(** shapely's rule on the number of coordinates, in its strictest form: an
    empty sequence gives the empty polygon, and any other ring needs four
    coordinate tuples.  (Releases differ on sequences of three, which are
    not used here.)  It stands for [Polygon_accepts] where a run of the
    constructor is evaluated. *)
Definition shapely_accepts (coords : list (R * R)) : bool :=
  match coords with
  | [] => true
  | _ => (4 <=? length coords)%nat
  end.

(** ** The words of the specification *)

(** Section 4.1: convert both points to radians, take the differences, then
    [a = sin^2(dlat/2) + cos(lat1) cos(lat2) sin^2(dlon/2)],
    [c = 2 atan2(sqrt a, sqrt (1 - a))] and the result [radius * c]. *)
Definition spec_distance (p1 p2 : GPXTrackPoint) (radius : R) : R :=
  let lat1 := deg2rad (latitude p1) in
  let lon1 := deg2rad (longitude p1) in
  let lat2 := deg2rad (latitude p2) in
  let lon2 := deg2rad (longitude p2) in
  let dlat := lat2 - lat1 in
  let dlon := lon2 - lon1 in
  let a := Rsqr (sin (dlat / 2)) + cos lat1 * cos lat2 * Rsqr (sin (dlon / 2)) in
  let c := 2 * arctan2 (sqrt a) (sqrt (1 - a)) in
  radius * c.

(** Section 3: the planned track forward, then the actual track reversed,
    then the planned track's first point. *)
Definition BoundaryPolygon (line mission : list GPXTrackPoint)
  : list (R * R) :=
  map lon_lat line ++ rev (map lon_lat mission)
  ++ match line with
     | [] => []
     | first :: _ => [lon_lat first]
     end.

(** ** Tracks used as test inputs *)

Definition origin : GPXTrackPoint := mkPoint 0 0.

(** A planned line that ends where it starts, and an actual route that does
    not leave the point either. *)
Definition standing_still : list GPXTrackPoint := [origin; origin].

(** A planned line of three points going north along the prime meridian. *)
Definition meridian_line : list GPXTrackPoint :=
  [mkPoint 0 0; mkPoint 0 1; mkPoint 0 2].

(** ** Rings on the great circle a quarter turn away from the origin

    Coordinates are (longitude, latitude) pairs in degrees.  The four points
    below lie on the great circle whose pole is the origin (0, 0) of the
    colatitudes and azimuths. *)

Definition north : R * R := (0, 90).
Definition east : R * R := (90, 0).
Definition south : R * R := (0, - 90).
Definition west : R * R := (- 90, 0).

(** Three turns around the circle, back to the start. *)
Definition three_turns : list (R * R) :=
  [north; east; south; west;
   north; east; south; west;
   north; east; south; west; north].

(** From pole to pole, then back through the east point. *)
Definition pole_to_pole : list (R * R) := [north; south; east; north].

(** The arrays in radians that [polygon_area] computes from a ring. *)
Definition lats_of (ring : list (R * R)) : list R :=
  map deg2rad (map snd ring).

Definition lons_of (ring : list (R * R)) : list R :=
  map deg2rad (map fst ring).

(** ** Valid points and safety margins *)

(** The invariant of a GeoPoint: a (longitude, latitude) pair in degrees with
    the longitude in [[-180, 180]] and the latitude in [[-90, 90]]. *)
Definition GeoPoint_valid (p : R * R) : Prop :=
  - 180 <= fst p <= 180 /\ - 90 <= snd p <= 90.

(** A millionth of a radian.  The azimuth of a point is ill-conditioned next
    to the origin (0, 0) and to its antipode, and the normalisation of an
    azimuth difference jumps by a whole turn at half a turn; statements
    that need to stay clear of these places keep this distance, which is far
    above the rounding error of the [float64] computation. *)
Definition half_turn_margin : R := 1 / 1000000.

(** The distance the haversine term is kept below 1 where a statement needs
    the end points not to be antipodal: within rounding of 1 the [float64]
    term can exceed 1. *)
Definition antipode_margin : R := 1 / 1000000000.

(** ** Consecutive pairs

    [diff], the slice [colat[0:-1]] and the elementwise products all walk
    the consecutive pairs of a ring; [pairwise] names that walk. *)

Fixpoint pairwise {A B : Type} (f : A -> A -> B) (l : list A) : list B :=
  match l with
  | x :: ((y :: _) as t) => f x y :: pairwise f t
  | _ => []
  end.

(** The colatitude and azimuth of a (longitude, latitude) pair in degrees. *)
Definition colatitude_of (p : R * R) : R :=
  colatitude (deg2rad (snd p)) (deg2rad (fst p)).

Definition azimuth_of (p : R * R) : R :=
  azimuth (deg2rad (snd p)) (deg2rad (fst p)).

(** The normalised azimuth delta and the integrand of the edge from [p] to
    [q]. *)
Definition edge_delta (p q : R * R) : R :=
  normalise (azimuth_of q - azimuth_of p).

Definition edge_integrand (p q : R * R) : R :=
  (1 - cos (colatitude_of p + (colatitude_of q - colatitude_of p) / 2))
  * edge_delta p q.

(** The azimuth deltas [daz] that [polygon_area] computes from a ring. *)
Definition daz_of (ring : list (R * R)) : list R :=
  azimuth_deltas (azimuths (lats_of ring) (lons_of ring)).

(** A planned line along the equator, from the origin a quarter turn east. *)
Definition quarter_line : list GPXTrackPoint := [mkPoint 0 0; mkPoint 90 0].

(** The haversine term [a] of lines 104 and 127. *)
Definition haversine_term (lat_1 lon_1 lat_2 lon_2 : R) : R :=
  sin ((lat_2 - lat_1) / 2) ^ 2
  + cos lat_1 * cos lat_2 * sin ((lon_2 - lon_1) / 2) ^ 2.

(** * Properties *)

(** ** Arithmetic of the numpy functions *)

Lemma two_PI_pos : 0 < 2 * PI.
Proof. pose proof PI_RGT_0. lra. Qed.

Lemma py_mod_bounds (x y : R) : 0 < y -> 0 <= py_mod x y < y.
Proof.
  intros Hy. unfold py_mod.
  destruct (Zfloor_bound (x / y)) as [Hlo Hhi].
  assert (Hx : x = x / y * y) by (field; lra).
  split.
  - apply (Rmult_le_compat_r y) in Hlo; lra.
  - apply (Rmult_lt_compat_r y) in Hhi; lra.
Qed.

Lemma py_mod_eq (k : Z) (x y : R) :
  0 < y -> 0 <= x - IZR k * y < y -> py_mod x y = x - IZR k * y.
Proof.
  intros Hy [Hlo Hhi]. unfold py_mod.
  replace (Zfloor (x / y)) with k; [reflexivity|].
  symmetry. apply Zfloor_eq.
  assert (Hx : x / y * y = x) by (field; lra).
  split.
  - apply (Rmult_le_reg_r y); lra.
  - apply (Rmult_lt_reg_r y); lra.
Qed.

Lemma normalise_bounds (d : R) : - PI <= normalise d < PI.
Proof.
  unfold normalise.
  pose proof (py_mod_bounds (d + PI) (2 * PI) two_PI_pos). lra.
Qed.

Lemma normalise_eq (k : Z) (d : R) :
  - PI <= d - IZR k * (2 * PI) < PI -> normalise d = d - IZR k * (2 * PI).
Proof.
  intros H. unfold normalise.
  rewrite (py_mod_eq k); [lra | apply two_PI_pos | lra].
Qed.

(** Away from the lower end of its range the normalisation is odd. *)
Lemma normalise_opp (d : R) :
  normalise d <> - PI -> normalise (- d) = - normalise d.
Proof.
  intros Hne.
  pose proof (normalise_bounds d) as Hb.
  unfold normalise in *.
  pose proof two_PI_pos as H2.
  set (k := Zfloor ((d + PI) / (2 * PI))).
  assert (Hk : py_mod (d + PI) (2 * PI) = d + PI - IZR k * (2 * PI))
    by reflexivity.
  rewrite Hk in *.
  rewrite (py_mod_eq (- k)) by (rewrite ?opp_IZR; lra).
  rewrite opp_IZR. lra.
Qed.

Lemma sum_acc (a : list R) (acc : R) : fold_left Rplus a acc = acc + sum a.
Proof.
  unfold sum. revert acc.
  induction a as [|x a IH]; intros acc; simpl.
  - lra.
  - rewrite IH, (IH (0 + x)). lra.
Qed.

Lemma sum_cons (x : R) (a : list R) : sum (x :: a) = x + sum a.
Proof. unfold sum at 1. simpl. rewrite sum_acc. lra. Qed.

Lemma sum_nil : sum [] = 0.
Proof. reflexivity. Qed.

Lemma sum_app (a b : list R) : sum (a ++ b) = sum a + sum b.
Proof.
  induction a as [|x a IH]; simpl.
  - rewrite sum_nil. lra.
  - rewrite !sum_cons, IH. lra.
Qed.

Lemma sum_rev (a : list R) : sum (rev a) = sum a.
Proof.
  induction a as [|x a IH]; simpl; [reflexivity|].
  rewrite sum_app, IH, !sum_cons, sum_nil. lra.
Qed.

Lemma sum_map_opp (a : list R) : sum (map Ropp a) = - sum a.
Proof.
  induction a as [|x a IH]; simpl.
  - rewrite sum_nil. lra.
  - rewrite !sum_cons, IH. lra.
Qed.

Lemma arctan2_right (y x : R) : 0 < x -> arctan2 y x = atan (y / x).
Proof.
  intros H. unfold arctan2.
  destruct (Rlt_dec 0 x); [reflexivity | lra].
Qed.

Lemma arctan2_left_up (y x : R) :
  x < 0 -> 0 <= y -> arctan2 y x = atan (y / x) + PI.
Proof.
  intros Hx Hy. unfold arctan2.
  destruct (Rlt_dec 0 x); [lra|].
  destruct (Rlt_dec x 0); [|lra].
  destruct (Rle_dec 0 y); [reflexivity | lra].
Qed.

Lemma arctan2_up (y : R) : 0 < y -> arctan2 y 0 = PI / 2.
Proof.
  intros Hy. unfold arctan2.
  destruct (Rlt_dec 0 0); [lra|].
  destruct (Rlt_dec 0 y); [reflexivity | lra].
Qed.

Lemma arctan2_down (y : R) : y < 0 -> arctan2 y 0 = - (PI / 2).
Proof.
  intros Hy. unfold arctan2.
  destruct (Rlt_dec 0 0); [lra|].
  destruct (Rlt_dec 0 y); [lra|].
  destruct (Rlt_dec y 0); [reflexivity | lra].
Qed.

Lemma arctan2_origin : arctan2 0 0 = 0.
Proof.
  unfold arctan2.
  destruct (Rlt_dec 0 0); [lra | reflexivity].
Qed.

Lemma deg2rad_0 : deg2rad 0 = 0.
Proof. unfold deg2rad. lra. Qed.

Lemma deg2rad_90 : deg2rad 90 = PI / 2.
Proof. unfold deg2rad. lra. Qed.

Lemma deg2rad_m90 : deg2rad (- 90) = - (PI / 2).
Proof. unfold deg2rad. lra. Qed.

Lemma sin_PI4_sqr : sin (PI / 4) ^ 2 = 1 / 2.
Proof.
  rewrite sin_PI4.
  assert (H : sqrt 2 * sqrt 2 = 2) by (apply sqrt_sqrt; lra).
  assert (Hp : 0 < sqrt 2) by (apply sqrt_lt_R0; lra).
  field_simplify; [|lra]. simpl. rewrite Rmult_1_r, H. reflexivity.
Qed.

Lemma sin_mPI4_sqr : sin (- (PI / 4)) ^ 2 = 1 / 2.
Proof.
  rewrite sin_neg. rewrite <- sin_PI4_sqr. ring.
Qed.

Lemma cos_mPI2 : cos (- (PI / 2)) = 0.
Proof. rewrite cos_neg. apply cos_PI2. Qed.

Lemma sin_mPI2 : sin (- (PI / 2)) = - 1.
Proof. rewrite sin_neg, sin_PI2. reflexivity. Qed.

(** The colatitude of a point whose haversine term [a] is one half. *)
Lemma colatitude_half (lat lon : R) :
  sin (lat / 2) ^ 2 + cos lat * sin (lon / 2) ^ 2 = 1 / 2 ->
  colatitude lat lon = PI / 2.
Proof.
  intros Ha. unfold colatitude. rewrite Ha.
  replace (1 - 1 / 2) with (1 / 2) by lra.
  assert (Hp : 0 < sqrt (1 / 2)) by (apply sqrt_lt_R0; lra).
  rewrite arctan2_right by exact Hp.
  replace (sqrt (1 / 2) / sqrt (1 / 2)) with 1 by (field; lra).
  rewrite atan_1. lra.
Qed.

Lemma colatitude_north : colatitude (deg2rad 90) (deg2rad 0) = PI / 2.
Proof.
  apply colatitude_half. rewrite deg2rad_90, deg2rad_0.
  replace (PI / 2 / 2) with (PI / 4) by lra.
  replace (0 / 2) with 0 by lra.
  rewrite sin_PI4_sqr, sin_0. lra.
Qed.

Lemma colatitude_south : colatitude (deg2rad (- 90)) (deg2rad 0) = PI / 2.
Proof.
  apply colatitude_half. rewrite deg2rad_m90, deg2rad_0.
  replace (- (PI / 2) / 2) with (- (PI / 4)) by lra.
  replace (0 / 2) with 0 by lra.
  rewrite sin_mPI4_sqr, sin_0. lra.
Qed.

Lemma colatitude_east : colatitude (deg2rad 0) (deg2rad 90) = PI / 2.
Proof.
  apply colatitude_half. rewrite deg2rad_90, deg2rad_0.
  replace (PI / 2 / 2) with (PI / 4) by lra.
  replace (0 / 2) with 0 by lra.
  rewrite sin_PI4_sqr, sin_0, cos_0. lra.
Qed.

Lemma colatitude_west : colatitude (deg2rad 0) (deg2rad (- 90)) = PI / 2.
Proof.
  apply colatitude_half. rewrite deg2rad_m90, deg2rad_0.
  replace (- (PI / 2) / 2) with (- (PI / 4)) by lra.
  replace (0 / 2) with 0 by lra.
  rewrite sin_mPI4_sqr, sin_0, cos_0. lra.
Qed.

Lemma azimuth_north : azimuth (deg2rad 90) (deg2rad 0) = 0.
Proof.
  unfold azimuth. rewrite deg2rad_90, deg2rad_0, cos_PI2, sin_PI2, sin_0.
  rewrite arctan2_right by lra.
  replace (0 * 0 / 1) with 0 by lra. rewrite atan_0.
  rewrite (py_mod_eq 0) by (pose proof two_PI_pos; lra). lra.
Qed.

Lemma azimuth_east : azimuth (deg2rad 0) (deg2rad 90) = PI / 2.
Proof.
  unfold azimuth. rewrite deg2rad_90, deg2rad_0, cos_0, sin_PI2, sin_0.
  rewrite arctan2_up by lra.
  rewrite (py_mod_eq 0) by (pose proof PI_RGT_0; lra). lra.
Qed.

Lemma azimuth_south : azimuth (deg2rad (- 90)) (deg2rad 0) = PI.
Proof.
  unfold azimuth. rewrite deg2rad_m90, deg2rad_0, cos_mPI2, sin_mPI2, sin_0.
  rewrite arctan2_left_up by lra.
  replace (0 * 0 / - 1) with 0 by lra. rewrite atan_0.
  rewrite (py_mod_eq 0) by (pose proof PI_RGT_0; lra). lra.
Qed.

Lemma azimuth_west : azimuth (deg2rad 0) (deg2rad (- 90)) = 3 * (PI / 2).
Proof.
  unfold azimuth. rewrite deg2rad_m90, deg2rad_0, cos_0, sin_mPI2, sin_0.
  rewrite arctan2_down by lra.
  rewrite (py_mod_eq (-1)) by (pose proof PI_RGT_0; lra). lra.
Qed.

(** ** The area of a ring *)

Lemma close_polygon_same (lats lons : list R) (x : R) :
  getitem_first lats = Ok x -> getitem_last lats = Ok x ->
  close_polygon lats lons = Ok (lats, lons).
Proof.
  intros Hf Hl. unfold close_polygon. rewrite Hf, Hl. simpl.
  destruct (Req_dec_T x x); [reflexivity | contradiction].
Qed.

Lemma getitem_first_map {A B : Type} (f : A -> B) (l : list A) (x : A) :
  getitem_first l = Ok x -> getitem_first (map f l) = Ok (f x).
Proof. destruct l; simpl; intros H; inversion H; reflexivity. Qed.

Lemma getitem_last_map {A B : Type} (f : A -> B) (l : list A) (x : A) :
  getitem_last l = Ok x -> getitem_last (map f l) = Ok (f x).
Proof.
  induction l as [|a l IH]; simpl; intros H; [discriminate|].
  destruct l as [|b l].
  - inversion H. reflexivity.
  - apply IH. exact H.
Qed.

Lemma getitem_last_app {A : Type} (l : list A) (x : A) :
  getitem_last (l ++ [x]) = Ok x.
Proof.
  induction l as [|a l IH]; simpl; [reflexivity|].
  destruct (l ++ [x]) eqn:E; [|exact IH].
  destruct l; discriminate.
Qed.

(** A ring whose first and last latitude agree goes through unchanged. *)
Lemma ring_area_closed (ring : list (R * R)) (radius : R) (p q : R * R) :
  getitem_first ring = Ok p -> getitem_last ring = Ok q -> snd p = snd q ->
  ring_area ring radius =
  Ok (area_of_integral (line_integral (lats_of ring) (lons_of ring)) radius).
Proof.
  intros Hf Hl Heq. unfold ring_area, polygon_area.
  rewrite (close_polygon_same _ _ (deg2rad (snd p))).
  - reflexivity.
  - apply getitem_first_map, getitem_first_map, Hf.
  - rewrite Heq. apply getitem_last_map, getitem_last_map, Hl.
Qed.

Lemma area_of_integral_le (s radius : R) :
  area_of_integral s radius <= 2 * PI * radius ^ 2.
Proof.
  unfold area_of_integral.
  pose proof PI_RGT_0 as HPI.
  set (f := Rabs s / (4 * PI)).
  assert (Hm : Rmin f (1 - f) <= 1 / 2).
  { destruct (Rle_dec f (1 / 2)).
    - pose proof (Rmin_l f (1 - f)). lra.
    - pose proof (Rmin_r f (1 - f)). lra. }
  assert (Hr : 0 <= radius ^ 2) by (simpl; nra).
  replace (2 * PI * radius ^ 2) with (1 / 2 * 4 * PI * radius ^ 2) by lra.
  apply Rmult_le_compat_r; [exact Hr|].
  apply Rmult_le_compat_r; [lra|].
  apply Rmult_le_compat_r; lra.
Qed.

Lemma area_fraction_le_1 (s : R) :
  Rabs s <= 4 * PI <-> Rabs s / (4 * PI) <= 1.
Proof.
  pose proof PI_RGT_0 as HPI.
  split; intros H.
  - apply (Rmult_le_reg_r (4 * PI)); [lra|].
    replace (Rabs s / (4 * PI) * (4 * PI)) with (Rabs s) by (field; lra). lra.
  - apply (Rmult_le_compat_r (4 * PI)) in H; [|lra].
    replace (Rabs s / (4 * PI) * (4 * PI)) with (Rabs s) in H by (field; lra).
    lra.
Qed.

Lemma area_of_integral_nonneg (s radius : R) :
  Rabs s <= 4 * PI -> 0 <= area_of_integral s radius.
Proof.
  intros Hs. apply area_fraction_le_1 in Hs.
  unfold area_of_integral.
  pose proof PI_RGT_0 as HPI.
  set (f := Rabs s / (4 * PI)) in *.
  assert (Hf : 0 <= f).
  { unfold f. apply Rmult_le_pos; [apply Rabs_pos|].
    apply Rlt_le, Rinv_0_lt_compat. lra. }
  assert (Hm : 0 <= Rmin f (1 - f)) by (apply Rmin_glb; lra).
  assert (Hr : 0 <= radius ^ 2) by (simpl; nra).
  apply Rmult_le_pos; [|exact Hr].
  apply Rmult_le_pos; [|lra].
  apply Rmult_le_pos; lra.
Qed.

Lemma area_of_integral_neg (s radius : R) :
  4 * PI < Rabs s -> radius <> 0 -> area_of_integral s radius < 0.
Proof.
  intros Hs Hr.
  assert (Hf : ~ Rabs s / (4 * PI) <= 1)
    by (intros H; apply area_fraction_le_1 in H; lra).
  unfold area_of_integral.
  pose proof PI_RGT_0 as HPI.
  set (f := Rabs s / (4 * PI)) in *.
  assert (Hm : Rmin f (1 - f) < 0)
    by (pose proof (Rmin_r f (1 - f)); lra).
  assert (Hr2 : 0 < radius ^ 2) by (simpl; nra).
  assert (H4 : 0 < - Rmin f (1 - f) * 4 * PI).
  { apply Rmult_lt_0_compat; [|lra]. apply Rmult_lt_0_compat; lra. }
  pose proof (Rmult_lt_0_compat _ _ H4 Hr2). lra.
Qed.

(** ** Evaluating the routine on the rings of the great circle *)

Ltac unfold_arrays :=
  unfold line_integral, lats_of, lons_of, colatitudes, azimuths,
    azimuth_deltas, mid_colatitudes, integrands;
  cbn [map fst snd elementwise diff removelast rev app
       three_turns pole_to_pole north east south west];
  rewrite ?colatitude_north, ?colatitude_east, ?colatitude_south,
    ?colatitude_west, ?azimuth_north, ?azimuth_east, ?azimuth_south,
    ?azimuth_west.

Lemma normalise_quarter (d : R) : d = PI / 2 -> normalise d = PI / 2.
Proof.
  intros ->. rewrite (normalise_eq 0) by (pose proof PI_RGT_0; lra). lra.
Qed.

Lemma normalise_wrap (d : R) : d = - (3 * (PI / 2)) -> normalise d = PI / 2.
Proof.
  intros ->. rewrite (normalise_eq (-1)) by (pose proof PI_RGT_0; lra). lra.
Qed.

Lemma normalise_back (d : R) : d = - (PI / 2) -> normalise d = - (PI / 2).
Proof.
  intros ->. rewrite (normalise_eq 0) by (pose proof PI_RGT_0; lra). lra.
Qed.

Lemma normalise_half_turn (d : R) : d = PI -> normalise d = - PI.
Proof.
  intros ->. rewrite (normalise_eq 1) by (pose proof PI_RGT_0; lra). lra.
Qed.

Lemma normalise_half_turn_back (d : R) : d = - PI -> normalise d = - PI.
Proof.
  intros ->. rewrite (normalise_eq 0) by (pose proof PI_RGT_0; lra). lra.
Qed.

Lemma integrand_on_circle (d : R) :
  (1 - cos (PI / 2 + (PI / 2 - PI / 2) / 2)) * d = d.
Proof.
  replace (PI / 2 + (PI / 2 - PI / 2) / 2) with (PI / 2) by lra.
  rewrite cos_PI2. lra.
Qed.

Lemma line_integral_three_turns :
  line_integral (lats_of three_turns) (lons_of three_turns) = 6 * PI.
Proof.
  unfold_arrays.
  rewrite !(normalise_quarter (PI / 2 - 0)) by lra.
  rewrite !(normalise_quarter (PI - PI / 2)) by lra.
  rewrite !(normalise_quarter (3 * (PI / 2) - PI)) by lra.
  rewrite !(normalise_wrap (0 - 3 * (PI / 2))) by lra.
  rewrite !integrand_on_circle.
  rewrite !sum_cons, sum_nil. lra.
Qed.

Lemma line_integral_pole_to_pole :
  line_integral (lats_of pole_to_pole) (lons_of pole_to_pole) = - (2 * PI).
Proof.
  unfold_arrays.
  rewrite (normalise_half_turn (PI - 0)) by lra.
  rewrite (normalise_back (PI / 2 - PI)) by lra.
  rewrite (normalise_back (0 - PI / 2)) by lra.
  rewrite !integrand_on_circle.
  rewrite !sum_cons, sum_nil. lra.
Qed.

Lemma line_integral_pole_to_pole_rev :
  line_integral (lats_of (rev pole_to_pole)) (lons_of (rev pole_to_pole)) = 0.
Proof.
  unfold_arrays.
  rewrite (normalise_quarter (PI / 2 - 0)) by lra.
  rewrite (normalise_quarter (PI - PI / 2)) by lra.
  rewrite (normalise_half_turn_back (0 - PI)) by lra.
  rewrite !integrand_on_circle.
  rewrite !sum_cons, sum_nil. lra.
Qed.

(** ** The routine as a walk over the edges of the ring *)

Lemma elementwise_map {A : Type} (f : R -> R -> R) (g h : A -> R)
    (l : list A) :
  elementwise f (map g l) (map h l) = map (fun p => f (g p) (h p)) l.
Proof. induction l as [|x l IH]; simpl; [reflexivity | now rewrite IH]. Qed.

Lemma diff_pairwise (a : list R) : diff a = pairwise (fun x y => y - x) a.
Proof.
  induction a as [|x a IH]; [reflexivity|].
  destruct a as [|y a]; [reflexivity|].
  change (diff (x :: y :: a)) with ((y - x) :: diff (y :: a)).
  rewrite IH. reflexivity.
Qed.

Lemma removelast_pairwise (a : list R) :
  removelast a = pairwise (fun x _ => x) a.
Proof.
  induction a as [|x a IH]; [reflexivity|].
  destruct a as [|y a]; [reflexivity|].
  change (removelast (x :: y :: a)) with (x :: removelast (y :: a)).
  rewrite IH. reflexivity.
Qed.

Lemma map_pairwise {A B C : Type} (f : B -> C) (g : A -> A -> B)
    (l : list A) :
  map f (pairwise g l) = pairwise (fun x y => f (g x y)) l.
Proof.
  induction l as [|x l IH]; [reflexivity|].
  destruct l as [|y l]; [reflexivity|].
  change (map f (pairwise g (x :: y :: l)))
    with (f (g x y) :: map f (pairwise g (y :: l))).
  rewrite IH. reflexivity.
Qed.

Lemma pairwise_map {A B C : Type} (g : B -> B -> C) (k : A -> B)
    (l : list A) :
  pairwise g (map k l) = pairwise (fun x y => g (k x) (k y)) l.
Proof.
  induction l as [|x l IH]; [reflexivity|].
  destruct l as [|y l]; [reflexivity|].
  change (map k (x :: y :: l)) with (k x :: map k (y :: l)).
  change (pairwise g (k x :: map k (y :: l)))
    with (g (k x) (k y) :: pairwise g (map k (y :: l))).
  rewrite IH. reflexivity.
Qed.

Lemma elementwise_pairwise {A : Type} (f : R -> R -> R)
    (g h : A -> A -> R) (l : list A) :
  elementwise f (pairwise g l) (pairwise h l)
  = pairwise (fun x y => f (g x y) (h x y)) l.
Proof.
  induction l as [|x l IH]; [reflexivity|].
  destruct l as [|y l]; [reflexivity|].
  change (elementwise f (pairwise g (x :: y :: l)) (pairwise h (x :: y :: l)))
    with (f (g x y) (h x y)
          :: elementwise f (pairwise g (y :: l)) (pairwise h (y :: l))).
  rewrite IH. reflexivity.
Qed.

Lemma pairwise_app_last {A B : Type} (f : A -> A -> B) (l : list A)
    (x y : A) :
  pairwise f (l ++ [x; y]) = pairwise f (l ++ [x]) ++ [f x y].
Proof.
  induction l as [|a l IH]; [reflexivity|].
  destruct l as [|b l].
  - reflexivity.
  - change (pairwise f ((a :: b :: l) ++ [x; y]))
      with (f a b :: pairwise f ((b :: l) ++ [x; y])).
    rewrite IH. reflexivity.
Qed.

Lemma pairwise_rev {A B : Type} (f : A -> A -> B) (l : list A) :
  pairwise f (rev l) = rev (pairwise (fun x y => f y x) l).
Proof.
  induction l as [|x l IH]; [reflexivity|].
  destruct l as [|y l]; [reflexivity|].
  change (pairwise (fun x0 y0 => f y0 x0) (x :: y :: l))
    with (f y x :: pairwise (fun x0 y0 => f y0 x0) (y :: l)).
  simpl rev in *. rewrite <- IH.
  rewrite <- app_assoc. simpl app.
  apply pairwise_app_last.
Qed.

Lemma daz_of_edges (ring : list (R * R)) :
  daz_of ring = pairwise edge_delta ring.
Proof.
  unfold daz_of, azimuth_deltas, azimuths, lats_of, lons_of.
  rewrite !map_map, elementwise_map, diff_pairwise, map_pairwise,
    pairwise_map.
  reflexivity.
Qed.

Lemma line_integral_edges (ring : list (R * R)) :
  line_integral (lats_of ring) (lons_of ring)
  = sum (pairwise edge_integrand ring).
Proof.
  unfold line_integral.
  change (azimuth_deltas (azimuths (lats_of ring) (lons_of ring)))
    with (daz_of ring).
  rewrite daz_of_edges.
  unfold integrands, mid_colatitudes, colatitudes, lats_of, lons_of.
  rewrite !map_map, elementwise_map, diff_pairwise, removelast_pairwise,
    map_pairwise, elementwise_pairwise, pairwise_map, elementwise_pairwise.
  reflexivity.
Qed.

Lemma edge_integrand_swap (p q : R * R) :
  edge_delta p q <> - PI -> edge_integrand q p = - edge_integrand p q.
Proof.
  intros Hne. unfold edge_integrand.
  replace (colatitude_of q + (colatitude_of p - colatitude_of q) / 2)
    with (colatitude_of p + (colatitude_of q - colatitude_of p) / 2) by lra.
  unfold edge_delta in *.
  replace (azimuth_of p - azimuth_of q)
    with (- (azimuth_of q - azimuth_of p)) by lra.
  rewrite normalise_opp by exact Hne. ring.
Qed.

Lemma pairwise_swap_opp (ring : list (R * R)) :
  Forall (fun d => d <> - PI) (pairwise edge_delta ring) ->
  pairwise (fun p q => edge_integrand q p) ring
  = map Ropp (pairwise edge_integrand ring).
Proof.
  induction ring as [|p ring IH]; [reflexivity|].
  destruct ring as [|q ring]; [reflexivity|].
  change (pairwise edge_delta (p :: q :: ring))
    with (edge_delta p q :: pairwise edge_delta (q :: ring)).
  intros H. inversion H as [|d ds Hd Hds]; subst.
  change (pairwise (fun p0 q0 => edge_integrand q0 p0) (p :: q :: ring))
    with (edge_integrand q p
          :: pairwise (fun p0 q0 => edge_integrand q0 p0) (q :: ring)).
  change (map Ropp (pairwise edge_integrand (p :: q :: ring)))
    with (- edge_integrand p q
          :: map Ropp (pairwise edge_integrand (q :: ring))).
  rewrite IH by exact Hds.
  rewrite edge_integrand_swap by exact Hd. reflexivity.
Qed.

Lemma line_integral_rev (ring : list (R * R)) :
  Forall (fun d => d <> - PI) (daz_of ring) ->
  line_integral (lats_of (rev ring)) (lons_of (rev ring))
  = - line_integral (lats_of ring) (lons_of ring).
Proof.
  intros H. rewrite daz_of_edges in H.
  rewrite !line_integral_edges, pairwise_rev, sum_rev.
  rewrite pairwise_swap_opp by exact H.
  apply sum_map_opp.
Qed.

Lemma area_of_integral_opp (s radius : R) :
  area_of_integral (- s) radius = area_of_integral s radius.
Proof. unfold area_of_integral. rewrite Rabs_Ropp. reflexivity. Qed.

Lemma getitem_first_rev {A : Type} (l : list A) :
  getitem_first (rev l) = getitem_last l.
Proof.
  induction l as [|x l IH]; [reflexivity|].
  simpl rev. destruct l as [|y l]; [reflexivity|].
  change (getitem_last (x :: y :: l)) with (getitem_last (y :: l)).
  rewrite <- IH.
  destruct (rev (y :: l)) eqn:E; [|reflexivity].
  apply (f_equal (@length A)) in E. rewrite length_rev in E. discriminate.
Qed.

Lemma getitem_last_rev {A : Type} (l : list A) :
  getitem_last (rev l) = getitem_first l.
Proof.
  destruct l as [|x l]; [reflexivity|].
  simpl rev. apply getitem_last_app.
Qed.

Lemma getitem_last_cons {A : Type} (x : A) (l : list A) :
  exists y, getitem_last (x :: l) = Ok y.
Proof.
  revert x. induction l as [|a l IH]; intros x.
  - exists x. reflexivity.
  - destruct (IH a) as [y Hy]. exists y. exact Hy.
Qed.

(** ** The range of the area (C1) *)

Lemma area_of_integral_fraction (s radius f : R) :
  Rabs s = f * (4 * PI) ->
  area_of_integral s radius = Rmin f (1 - f) * 4 * PI * radius ^ 2.
Proof.
  intros H. unfold area_of_integral. rewrite H.
  replace (f * (4 * PI) / (4 * PI)) with f
    by (field; pose proof PI_RGT_0; lra).
  reflexivity.
Qed.

Lemma ring_area_three_turns : ring_area three_turns 1 = Ok (- (2 * PI)).
Proof.
  rewrite (ring_area_closed three_turns 1 north north) by reflexivity.
  rewrite line_integral_three_turns.
  rewrite (area_of_integral_fraction _ _ (3 / 2)).
  - rewrite Rmin_right by lra. f_equal. lra.
  - rewrite Rabs_right by (pose proof PI_RGT_0; lra). lra.
Qed.

(** C1, as stated, fails: the ring that goes three times around the great
    circle a quarter turn from the origin has 13 points, and on a sphere of
    radius 1 its reported area is [-2 pi], below the claimed range
    [[0, 2 pi r^2]]. *)
Lemma three_turns_area_negative :
  (3 <= length three_turns)%nat /\ 0 < 1 /\
  ring_area three_turns 1 = Ok (- (2 * PI)) /\
  ~ (0 <= - (2 * PI) <= 2 * PI * 1 ^ 2).
Proof.
  split; [simpl; lia|]. split; [lra|].
  split; [exact ring_area_three_turns|].
  pose proof PI_RGT_0. lra.
Qed.

(** C1, amended: on a ring whose first and last latitude agree (every ring
    the reading stage builds is one) the routine returns
    [min(f, 1 - f) * 4 pi r^2] for the fraction [f = |sum| / (4 pi)]; the
    value never exceeds [2 pi r^2]; it is non-negative when the sum of the
    integrands is at most [4 pi] in absolute value, and negative when the
    sum is larger and the radius is not zero. *)
Theorem ring_area_range (ring : list (R * R)) (radius : R) (p q : R * R) :
  getitem_first ring = Ok p -> getitem_last ring = Ok q -> snd p = snd q ->
  let s := line_integral (lats_of ring) (lons_of ring) in
  let f := Rabs s / (4 * PI) in
  exists v,
    ring_area ring radius = Ok v /\
    v = Rmin f (1 - f) * 4 * PI * radius ^ 2 /\
    v <= 2 * PI * radius ^ 2 /\
    (Rabs s <= 4 * PI -> 0 <= v) /\
    (4 * PI < Rabs s -> radius <> 0 -> v < 0).
Proof.
  intros Hf Hl Heq s f.
  exists (area_of_integral s radius).
  split; [exact (ring_area_closed ring radius p q Hf Hl Heq)|].
  split; [reflexivity|].
  split; [apply area_of_integral_le|].
  split; [apply area_of_integral_nonneg | apply area_of_integral_neg].
Qed.

Lemma ring_area_range_witness :
  getitem_first pole_to_pole = Ok north /\
  getitem_last pole_to_pole = Ok north /\
  snd north = snd north /\
  exists v,
    ring_area pole_to_pole 1 = Ok v /\
    v = Rmin (Rabs (line_integral (lats_of pole_to_pole)
                      (lons_of pole_to_pole)) / (4 * PI))
          (1 - Rabs (line_integral (lats_of pole_to_pole)
                       (lons_of pole_to_pole)) / (4 * PI))
        * 4 * PI * 1 ^ 2 /\
    v <= 2 * PI * 1 ^ 2 /\
    (Rabs (line_integral (lats_of pole_to_pole) (lons_of pole_to_pole))
     <= 4 * PI -> 0 <= v) /\
    (4 * PI < Rabs (line_integral (lats_of pole_to_pole)
                      (lons_of pole_to_pole)) -> 1 <> 0 -> v < 0).
Proof.
  split; [reflexivity|]. split; [reflexivity|]. split; [reflexivity|].
  apply (ring_area_range pole_to_pole 1 north north); reflexivity.
Defined.

(** ** The range of the azimuth deltas (C5) *)

Lemma daz_of_pole_to_pole :
  daz_of pole_to_pole = [- PI; - (PI / 2); - (PI / 2)].
Proof.
  unfold daz_of. unfold_arrays.
  rewrite (normalise_half_turn (PI - 0)) by lra.
  rewrite (normalise_back (PI / 2 - PI)) by lra.
  rewrite (normalise_back (0 - PI / 2)) by lra.
  reflexivity.
Qed.

(** C5, as stated, fails: from the north pole (azimuth 0) to the south pole
    (azimuth pi) the azimuth difference is pi, and its normalisation is
    [-pi], which is not in [(-pi, pi]]. *)
Lemma daz_reaches_minus_pi :
  ~ Forall (fun d => - PI < d <= PI) (daz_of pole_to_pole).
Proof.
  rewrite daz_of_pole_to_pole. intros H.
  inversion H as [|d ds Hd Hds]; subst. lra.
Qed.

(** C5, amended: every azimuth delta the routine computes lies in the closed
    interval [[-pi, pi]].  The lower end [-pi] is reached, as above.  The
    upper end stays in the range: the real remainder is below its divisor,
    but the [float64] remainder of the code can round up to it. *)
Theorem azimuth_deltas_range (lats lons : list R) :
  Forall (fun d => - PI <= d <= PI) (azimuth_deltas (azimuths lats lons)).
Proof.
  unfold azimuth_deltas. apply Forall_forall. intros d Hin.
  apply in_map_iff in Hin. destruct Hin as [x [<- _]].
  pose proof (normalise_bounds x). lra.
Qed.

(** ** Reversing the ring (C9) *)

Lemma ring_area_pole_to_pole : ring_area pole_to_pole 1 = Ok (2 * PI).
Proof.
  rewrite (ring_area_closed pole_to_pole 1 north north) by reflexivity.
  rewrite line_integral_pole_to_pole.
  rewrite (area_of_integral_fraction _ _ (1 / 2)).
  - rewrite Rmin_left by lra. f_equal. lra.
  - rewrite Rabs_Ropp, Rabs_right by (pose proof PI_RGT_0; lra). lra.
Qed.

Lemma ring_area_pole_to_pole_rev : ring_area (rev pole_to_pole) 1 = Ok 0.
Proof.
  rewrite (ring_area_closed (rev pole_to_pole) 1 north north) by reflexivity.
  rewrite line_integral_pole_to_pole_rev.
  rewrite (area_of_integral_fraction _ _ 0).
  - rewrite Rmin_left by lra. f_equal. lra.
  - rewrite Rabs_R0. lra.
Qed.

(** C9, as stated, fails: the ring north pole, south pole, east point, north
    pole has area [2 pi] on the unit sphere and its reverse has area [0].
    The edge between the poles has azimuth difference [pi] one way and
    [-pi] the other, and both normalise to [-pi]. *)
Lemma reversed_ring_area_differs :
  (3 <= length pole_to_pole)%nat /\
  ring_area pole_to_pole 1 = Ok (2 * PI) /\
  ring_area (rev pole_to_pole) 1 = Ok 0 /\
  ring_area (rev pole_to_pole) 1 <> ring_area pole_to_pole 1.
Proof.
  split; [simpl; lia|].
  split; [exact ring_area_pole_to_pole|].
  split; [exact ring_area_pole_to_pole_rev|].
  rewrite ring_area_pole_to_pole, ring_area_pole_to_pole_rev.
  intros H. inversion H as [H0]. pose proof PI_RGT_0. lra.
Qed.

(** C9, amended: for a ring of valid points that ends at the point it starts
    at, whose points all keep a millionth of a radian away from the origin
    (0, 0) and from its antipode, and whose normalised azimuth deltas all
    keep a millionth of a radian away from half a turn, the area routine
    returns the same area for the ring and for the ring traversed in reverse
    order. *)
Theorem ring_area_rev (ring : list (R * R)) (radius : R) (p : R * R) :
  getitem_first ring = Ok p -> getitem_last ring = Ok p ->
  Forall GeoPoint_valid ring ->
  Forall (fun c => half_turn_margin <= c <= PI - half_turn_margin)
    (colatitudes (lats_of ring) (lons_of ring)) ->
  Forall (fun d => Rabs d <= PI - half_turn_margin) (daz_of ring) ->
  exists v,
    ring_area ring radius = Ok v /\ ring_area (rev ring) radius = Ok v.
Proof.
  intros Hf Hl _ _ Hdaz.
  assert (Hne : Forall (fun d => d <> - PI) (daz_of ring)).
  { apply (Forall_impl _ (P := fun d => Rabs d <= PI - half_turn_margin));
      [|exact Hdaz].
    intros d Hd Heq. subst d. rewrite Rabs_Ropp in Hd.
    pose proof PI_RGT_0. rewrite Rabs_pos_eq in Hd by lra.
    unfold half_turn_margin in Hd. lra. }
  exists (area_of_integral (line_integral (lats_of ring) (lons_of ring))
            radius).
  split.
  - apply (ring_area_closed ring radius p p Hf Hl eq_refl).
  - rewrite (ring_area_closed (rev ring) radius p p).
    + rewrite line_integral_rev by exact Hne.
      rewrite area_of_integral_opp. reflexivity.
    + rewrite getitem_first_rev. exact Hl.
    + rewrite getitem_last_rev. exact Hf.
    + reflexivity.
Qed.

Lemma daz_of_three_turns :
  daz_of three_turns = repeat (PI / 2) 12.
Proof.
  unfold daz_of. unfold_arrays.
  rewrite !(normalise_quarter (PI / 2 - 0)) by lra.
  rewrite !(normalise_quarter (PI - PI / 2)) by lra.
  rewrite !(normalise_quarter (3 * (PI / 2) - PI)) by lra.
  rewrite !(normalise_wrap (0 - 3 * (PI / 2))) by lra.
  reflexivity.
Qed.

Lemma colatitudes_three_turns :
  colatitudes (lats_of three_turns) (lons_of three_turns)
  = repeat (PI / 2) 13.
Proof.
  unfold colatitudes, lats_of, lons_of.
  cbn [map fst snd elementwise three_turns north east south west].
  rewrite ?colatitude_north, ?colatitude_east, ?colatitude_south,
    ?colatitude_west.
  reflexivity.
Qed.

Lemma ring_area_rev_witness :
  getitem_first three_turns = Ok north /\
  getitem_last three_turns = Ok north /\
  Forall GeoPoint_valid three_turns /\
  Forall (fun c => half_turn_margin <= c <= PI - half_turn_margin)
    (colatitudes (lats_of three_turns) (lons_of three_turns)) /\
  Forall (fun d => Rabs d <= PI - half_turn_margin) (daz_of three_turns) /\
  exists v,
    ring_area three_turns 1 = Ok v /\ ring_area (rev three_turns) 1 = Ok v.
Proof.
  assert (Hv : Forall GeoPoint_valid three_turns).
  { unfold three_turns, north, east, south, west, GeoPoint_valid.
    repeat (apply Forall_cons; [simpl; lra|]). apply Forall_nil. }
  assert (Hc : Forall (fun c => half_turn_margin <= c
                                <= PI - half_turn_margin)
                 (colatitudes (lats_of three_turns) (lons_of three_turns))).
  { rewrite colatitudes_three_turns. apply Forall_forall. intros c Hin.
    apply repeat_spec in Hin. subst c.
    pose proof PI2_1. unfold half_turn_margin. lra. }
  assert (Hd : Forall (fun d => Rabs d <= PI - half_turn_margin)
                 (daz_of three_turns)).
  { rewrite daz_of_three_turns. apply Forall_forall. intros d Hin.
    apply repeat_spec in Hin. subst d.
    pose proof PI2_1. unfold half_turn_margin.
    rewrite Rabs_pos_eq; lra. }
  split; [reflexivity|]. split; [reflexivity|].
  split; [exact Hv|]. split; [exact Hc|]. split; [exact Hd|].
  exact (ring_area_rev three_turns 1 north eq_refl eq_refl Hv Hc Hd).
Defined.

(** ** The boundary ring (C6) *)

Lemma read_segments_polygon (line mission : list GPXTrackPoint) (radius : R) :
  lon_lat_polygon (read_segments (fresh radius) line mission)
  = BoundaryPolygon line mission.
Proof.
  unfold read_segments, BoundaryPolygon. cbn [lon_lat_polygon fresh app].
  rewrite map_rev, <- app_assoc.
  destruct line; reflexivity.
Qed.

Lemma read_segments_lat (line mission : list GPXTrackPoint) (radius : R) :
  lat_polygon (read_segments (fresh radius) line mission)
  = map snd (BoundaryPolygon line mission).
Proof.
  rewrite <- (read_segments_polygon line mission radius). reflexivity.
Qed.

Lemma read_segments_lon (line mission : list GPXTrackPoint) (radius : R) :
  lon_polygon (read_segments (fresh radius) line mission)
  = map fst (BoundaryPolygon line mission).
Proof.
  rewrite <- (read_segments_polygon line mission radius). reflexivity.
Qed.

(** C6: the ring [read_segments] builds is the planned track forward, the
    actual track reversed and one copy of the planned track's first point,
    and nothing else; its longitudes and latitudes are the two arrays
    [calculate_area] works on. *)
Theorem boundary_ring (first : GPXTrackPoint)
    (rest mission : list GPXTrackPoint) (radius : R) :
  let line := first :: rest in
  let self := read_segments (fresh radius) line mission in
  lon_lat_polygon self
  = map lon_lat line ++ rev (map lon_lat mission) ++ [lon_lat first] /\
  lon_lat_polygon self = BoundaryPolygon line mission /\
  lon_polygon self = map fst (lon_lat_polygon self) /\
  lat_polygon self = map snd (lon_lat_polygon self) /\
  calculate_area self
  = (a <- ring_area (lon_lat_polygon self) radius ;; Ok (set_area self a)).
Proof.
  intros line self.
  assert (H : lon_lat_polygon self = BoundaryPolygon line mission)
    by apply read_segments_polygon.
  split; [exact H|]. split; [exact H|].
  split; [reflexivity|]. split; reflexivity.
Qed.

(** ** The distance of the planned line (C7, C8) *)

Lemma haversine_spec (p1 p2 : GPXTrackPoint) (radius : R) :
  haversine (deg2rad (latitude p1)) (deg2rad (longitude p1))
    (deg2rad (latitude p2)) (deg2rad (longitude p2)) radius
  = spec_distance p1 p2 radius.
Proof.
  unfold haversine, spec_distance, Rsqr. simpl pow.
  rewrite !Rmult_1_r. reflexivity.
Qed.

Lemma line_distance_ends (line : list GPXTrackPoint) (radius : R)
    (first last : GPXTrackPoint) :
  getitem_first line = Ok first -> getitem_last line = Ok last ->
  line_distance line radius = Ok (spec_distance first last radius).
Proof.
  intros Hf Hl. unfold line_distance. rewrite Hf, Hl. simpl bind.
  rewrite haversine_spec. reflexivity.
Qed.

(** C7: for a planned track of two points or more the distance is the
    haversine distance of section 4.1 between its first and its last point,
    and every track with the same two end points gives the same distance. *)
Theorem distance_of_end_points (line mission : list GPXTrackPoint)
    (radius : R) :
  (2 <= length line)%nat ->
  exists first last,
    getitem_first line = Ok first /\
    getitem_last line = Ok last /\
    line_distance line radius = Ok (spec_distance first last radius) /\
    (exists self,
       calculate_line_distance (read_segments (fresh radius) line mission)
       = Ok self /\
       distance self = Some (spec_distance first last radius)) /\
    (forall line',
       getitem_first line' = Ok first -> getitem_last line' = Ok last ->
       line_distance line' radius = line_distance line radius).
Proof.
  intros Hlen.
  destruct line as [|first rest]; [simpl in Hlen; lia|].
  destruct (getitem_last_cons first rest) as [last Hl].
  exists first, last.
  assert (Hd : line_distance (first :: rest) radius
               = Ok (spec_distance first last radius))
    by (apply line_distance_ends; [reflexivity | exact Hl]).
  split; [reflexivity|]. split; [exact Hl|]. split; [exact Hd|]. split.
  - unfold calculate_line_distance.
    cbn [segment_line earth_radius read_segments fresh].
    rewrite Hd. simpl bind. eexists. split; reflexivity.
  - intros line' Hf' Hl'. rewrite Hd.
    apply line_distance_ends; assumption.
Qed.

Lemma distance_of_end_points_witness :
  (2 <= length meridian_line)%nat /\
  exists first last,
    getitem_first meridian_line = Ok first /\
    getitem_last meridian_line = Ok last /\
    line_distance meridian_line 1 = Ok (spec_distance first last 1) /\
    (exists self,
       calculate_line_distance (read_segments (fresh 1) meridian_line [])
       = Ok self /\
       distance self = Some (spec_distance first last 1)) /\
    (forall line',
       getitem_first line' = Ok first -> getitem_last line' = Ok last ->
       line_distance line' 1 = line_distance meridian_line 1).
Proof.
  split; [simpl; lia|].
  apply (distance_of_end_points meridian_line [] 1). simpl. lia.
Defined.

Lemma haversine_sym (lat_1 lon_1 lat_2 lon_2 radius : R) :
  haversine lat_1 lon_1 lat_2 lon_2 radius
  = haversine lat_2 lon_2 lat_1 lon_1 radius.
Proof.
  unfold haversine.
  replace ((lat_1 - lat_2) / 2) with (- ((lat_2 - lat_1) / 2)) by lra.
  replace ((lon_1 - lon_2) / 2) with (- ((lon_2 - lon_1) / 2)) by lra.
  rewrite !sin_neg.
  replace ((- sin ((lat_2 - lat_1) / 2)) ^ 2 +
           cos lat_2 * cos lat_1 * (- sin ((lon_2 - lon_1) / 2)) ^ 2)
    with (sin ((lat_2 - lat_1) / 2) ^ 2 +
          cos lat_1 * cos lat_2 * sin ((lon_2 - lon_1) / 2) ^ 2) by ring.
  reflexivity.
Qed.

(** C8: the distance is symmetric in its two points, as the formula of
    section 4.1 and as the distance of a planned line with the end points
    exchanged. *)
Theorem distance_symmetric (p1 p2 : GPXTrackPoint) (radius : R) :
  spec_distance p1 p2 radius = spec_distance p2 p1 radius /\
  line_distance [p1; p2] radius = line_distance [p2; p1] radius.
Proof.
  assert (H : spec_distance p1 p2 radius = spec_distance p2 p1 radius)
    by (rewrite <- !haversine_spec; apply haversine_sym).
  split; [exact H|].
  rewrite (line_distance_ends [p1; p2] radius p1 p2) by reflexivity.
  rewrite (line_distance_ends [p2; p1] radius p2 p1) by reflexivity.
  rewrite H. reflexivity.
Qed.

(** ** Runs of the constructor *)

Lemma BoundaryPolygon_first (first : GPXTrackPoint)
    (rest mission : list GPXTrackPoint) :
  getitem_first (BoundaryPolygon (first :: rest) mission)
  = Ok (lon_lat first).
Proof. reflexivity. Qed.

Lemma BoundaryPolygon_last (first : GPXTrackPoint)
    (rest mission : list GPXTrackPoint) :
  getitem_last (BoundaryPolygon (first :: rest) mission)
  = Ok (lon_lat first).
Proof.
  unfold BoundaryPolygon. rewrite !app_assoc. apply getitem_last_app.
Qed.

Lemma create_polygons_cases (accepts : list (R * R) -> bool)
    (self : GpxReader) :
  create_polygons accepts self = Ok self \/
  create_polygons accepts self = Raise ValueError.
Proof.
  unfold create_polygons, Polygon.
  destruct (accepts (lon_lat_line self)); [|right; reflexivity].
  destruct (accepts (lon_lat_mission self)); [|right; reflexivity].
  destruct (accepts (lon_lat_polygon self)); [|right; reflexivity].
  left. reflexivity.
Qed.

(** The area the constructor stores for a planned track that has a point. *)
Lemma calculate_area_boundary (first : GPXTrackPoint)
    (rest mission : list GPXTrackPoint) (radius d : R) :
  let line := first :: rest in
  let self := set_distance (read_segments (fresh radius) line mission) d in
  let ring := BoundaryPolygon line mission in
  calculate_area self
  = Ok (set_area self
          (area_of_integral (line_integral (lats_of ring) (lons_of ring))
             radius)).
Proof.
  intros line self ring. unfold calculate_area.
  change (lat_polygon self)
    with (lat_polygon (read_segments (fresh radius) line mission)).
  change (lon_polygon self)
    with (lon_polygon (read_segments (fresh radius) line mission)).
  rewrite read_segments_lat, read_segments_lon.
  change (polygon_area (map snd (BoundaryPolygon line mission))
            (map fst (BoundaryPolygon line mission)) (earth_radius self))
    with (ring_area ring radius).
  rewrite (ring_area_closed ring radius (lon_lat first) (lon_lat first)).
  - reflexivity.
  - apply BoundaryPolygon_first.
  - apply BoundaryPolygon_last.
  - reflexivity.
Qed.

(** What the constructor returns once shapely has taken the three
    coordinate sequences and the planned track has a point. *)
Lemma init_result (accepts : list (R * R) -> bool)
    (first last : GPXTrackPoint) (rest mission : list GPXTrackPoint)
    (radius : R) :
  let line := first :: rest in
  let self := read_segments (fresh radius) line mission in
  let ring := BoundaryPolygon line mission in
  let d := spec_distance first last radius in
  let a := area_of_integral (line_integral (lats_of ring) (lons_of ring))
             radius in
  getitem_last line = Ok last ->
  create_polygons accepts self = Ok self ->
  __init__ accepts line mission radius
  = Ok (set_av_deviation (set_area (set_distance self d) a)
          (np_truediv a d)).
Proof.
  intros line self ring d a Hl Hp. unfold __init__.
  fold line. fold self. rewrite Hp. simpl bind.
  unfold calculate_line_distance.
  change (segment_line self) with line.
  rewrite (line_distance_ends line (earth_radius self) first last)
    by (try reflexivity; exact Hl).
  simpl bind.
  change (earth_radius self) with radius. fold d.
  unfold self, line. rewrite calculate_area_boundary. simpl bind.
  reflexivity.
Qed.

Lemma init_empty_line (accepts : list (R * R) -> bool)
    (mission : list GPXTrackPoint) (radius : R) :
  let self := read_segments (fresh radius) [] mission in
  create_polygons accepts self = Ok self ->
  __init__ accepts [] mission radius = Raise IndexError.
Proof.
  intros self Hp. unfold __init__. fold self. rewrite Hp. reflexivity.
Qed.

Lemma init_rejected (accepts : list (R * R) -> bool)
    (line mission : list GPXTrackPoint) (radius : R) :
  let self := read_segments (fresh radius) line mission in
  create_polygons accepts self = Raise ValueError ->
  __init__ accepts line mission radius = Raise ValueError.
Proof.
  intros self Hp. unfold __init__. fold self. rewrite Hp. reflexivity.
Qed.

(** ** The closing branch is dead in the constructor (C10) *)

(** C10: the ring built from a planned track with a first point starts and
    ends at that point's latitude, so [close_polygon] hands the two arrays
    on without entering the branch that calls [append]; and no run of the
    constructor, on any two tracks, ends in the [AttributeError] of that
    branch. *)
Theorem closing_branch_not_taken (accepts : list (R * R) -> bool)
    (first : GPXTrackPoint) (rest mission : list GPXTrackPoint)
    (radius : R) :
  let self := read_segments (fresh radius) (first :: rest) mission in
  getitem_first (lat_polygon self) = Ok (latitude first) /\
  getitem_last (lat_polygon self) = Ok (latitude first) /\
  close_polygon (map deg2rad (lat_polygon self))
    (map deg2rad (lon_polygon self))
  = Ok (map deg2rad (lat_polygon self), map deg2rad (lon_polygon self)) /\
  (forall line, __init__ accepts line mission radius <> Raise AttributeError).
Proof.
  intros self.
  assert (Hf : getitem_first (lat_polygon self) = Ok (latitude first))
    by reflexivity.
  assert (Hl : getitem_last (lat_polygon self) = Ok (latitude first)).
  { unfold self. rewrite read_segments_lat.
    apply (getitem_last_map snd _ (lon_lat first)), BoundaryPolygon_last. }
  split; [exact Hf|]. split; [exact Hl|]. split.
  - apply (close_polygon_same _ _ (deg2rad (latitude first)));
      apply getitem_first_map || apply getitem_last_map; assumption.
  - intros line.
    destruct (create_polygons_cases accepts
                (read_segments (fresh radius) line mission)) as [Hp | Hp].
    + destruct line as [|p line].
      * rewrite init_empty_line by exact Hp. discriminate.
      * destruct (getitem_last_cons p line) as [q Hq].
        rewrite (init_result accepts p q line mission radius Hq Hp).
        discriminate.
    + rewrite init_rejected by exact Hp. discriminate.
Qed.

(** ** Closing the ring (C4) *)



(** ** A planned line of zero distance (C2) *)

Lemma spec_distance_same (p : GPXTrackPoint) (radius : R) :
  spec_distance p p radius = 0.
Proof.
  unfold spec_distance.
  replace ((deg2rad (latitude p) - deg2rad (latitude p)) / 2) with 0 by lra.
  replace ((deg2rad (longitude p) - deg2rad (longitude p)) / 2) with 0
    by lra.
  rewrite sin_0. unfold Rsqr.
  replace (0 * 0 + cos (deg2rad (latitude p)) * cos (deg2rad (latitude p))
                   * (0 * 0)) with 0 by ring.
  replace (1 - 0) with 1 by lra.
  rewrite sqrt_0, sqrt_1, arctan2_right by lra.
  replace (0 / 1) with 0 by lra. rewrite atan_0. ring.
Qed.

Lemma np_truediv_zero (a : R) :
  np_truediv a 0
  = if Req_dec_T a 0 then NaN else if Rlt_dec 0 a then PosInf else NegInf.
Proof.
  unfold np_truediv. destruct (Req_dec_T 0 0); [reflexivity | contradiction].
Qed.

Lemma edge_integrand_same (p : R * R) : edge_integrand p p = 0.
Proof.
  unfold edge_integrand, edge_delta.
  rewrite (normalise_eq 0) by (pose proof PI_RGT_0; lra). ring.
Qed.

Lemma area_standing_still (radius : R) :
  let ring := BoundaryPolygon standing_still standing_still in
  area_of_integral (line_integral (lats_of ring) (lons_of ring)) radius = 0.
Proof.
  intros ring. rewrite line_integral_edges.
  unfold ring, BoundaryPolygon, standing_still.
  cbn [map rev app pairwise].
  rewrite edge_integrand_same, !sum_cons, sum_nil.
  rewrite (area_of_integral_fraction _ _ 0).
  - rewrite Rmin_left by lra. ring.
  - replace (0 + (0 + (0 + (0 + 0)))) with 0 by lra. rewrite Rabs_R0. lra.
Qed.

(** C2, as stated, fails: for a planned line and a route that both stay at
    the origin the constructor returns normally, with distance 0 and the
    average deviation not-a-number; no error is raised. *)
Lemma standing_still_gives_nan :
  getitem_first standing_still = getitem_last standing_still /\
  exists self,
    __init__ shapely_accepts standing_still standing_still
      default_earth_radius = Ok self /\
    distance self = Some 0 /\
    av_deviation self = Some NaN.
Proof.
  split; [reflexivity|].
  eexists. split.
  - apply (init_result shapely_accepts origin origin [origin] standing_still);
      reflexivity.
  - cbn [distance av_deviation set_av_deviation set_area set_distance].
    fold standing_still.
    rewrite spec_distance_same, area_standing_still, np_truediv_zero.
    split; [reflexivity|].
    destruct (Req_dec_T 0 0); [reflexivity | contradiction].
Qed.

(** C2, amended: when the planned line's last point is its first point and
    shapely has taken the coordinate sequences, the constructor raises
    nothing: the distance is 0 and the average deviation is the unguarded
    [float64] quotient [area / 0], which is not-a-number for a zero area
    and an infinity otherwise, never a finite number. *)
Theorem zero_distance_divides (accepts : list (R * R) -> bool)
    (first : GPXTrackPoint) (rest mission : list GPXTrackPoint)
    (radius : R) :
  let line := first :: rest in
  getitem_last line = Ok first ->
  create_polygons accepts (read_segments (fresh radius) line mission)
  = Ok (read_segments (fresh radius) line mission) ->
  exists self a,
    __init__ accepts line mission radius = Ok self /\
    distance self = Some 0 /\
    area self = Some a /\
    av_deviation self
    = Some (if Req_dec_T a 0 then NaN
            else if Rlt_dec 0 a then PosInf else NegInf) /\
    (forall x, av_deviation self <> Some (Finite x)).
Proof.
  intros line Hl Hp.
  eexists. eexists. split.
  - apply (init_result accepts first first rest mission radius Hl Hp).
  - cbn [distance area av_deviation set_av_deviation set_area set_distance].
    rewrite spec_distance_same, np_truediv_zero.
    split; [reflexivity|]. split; [reflexivity|]. split; [reflexivity|].
    intros x.
    destruct (Req_dec_T _ 0); [discriminate|].
    destruct (Rlt_dec 0 _); discriminate.
Qed.

Lemma zero_distance_divides_witness :
  getitem_last standing_still = Ok origin /\
  create_polygons shapely_accepts
    (read_segments (fresh 1) standing_still standing_still)
  = Ok (read_segments (fresh 1) standing_still standing_still) /\
  exists self a,
    __init__ shapely_accepts standing_still standing_still 1 = Ok self /\
    distance self = Some 0 /\
    area self = Some a /\
    av_deviation self
    = Some (if Req_dec_T a 0 then NaN
            else if Rlt_dec 0 a then PosInf else NegInf) /\
    (forall x, av_deviation self <> Some (Finite x)).
Proof.
  split; [reflexivity|]. split; [reflexivity|].
  apply (zero_distance_divides shapely_accepts origin [origin]
           standing_still 1); reflexivity.
Defined.

(** ** Tracks that are too short (C3) *)

(** C3, as stated, fails: with a planned line of three points and an actual
    route of no points at all the constructor returns normally, having
    computed the distance, the area and the deviation. *)
Lemma empty_route_is_analysed :
  (length (@nil GPXTrackPoint) < 2)%nat /\
  exists self d a v,
    __init__ shapely_accepts meridian_line [] default_earth_radius = Ok self /\
    distance self = Some d /\
    area self = Some a /\
    av_deviation self = Some v.
Proof.
  split; [simpl; lia|].
  eexists. eexists. eexists. eexists. split.
  - apply (init_result shapely_accepts (mkPoint 0 0) (mkPoint 0 2)
             [mkPoint 0 1; mkPoint 0 2] []); reflexivity.
  - split; [reflexivity|]. split; reflexivity.
Qed.

(** C3, amended: the track lengths are not checked.  [read_segments] takes
    tracks of any length.  If shapely refuses one of the three coordinate
    sequences the constructor ends in its [ValueError]; otherwise a planned
    track with no point ends in the [IndexError] of the distance computation,
    and a planned track with at least one point is analysed to the end,
    whatever the length of the actual route. *)
Theorem track_lengths_not_checked (accepts : list (R * R) -> bool)
    (line mission : list GPXTrackPoint) (radius : R) :
  let self0 := read_segments (fresh radius) line mission in
  (create_polygons accepts self0 = Raise ValueError ->
   __init__ accepts line mission radius = Raise ValueError) /\
  (create_polygons accepts self0 = Ok self0 -> line = [] ->
   __init__ accepts line mission radius = Raise IndexError) /\
  (create_polygons accepts self0 = Ok self0 -> line <> [] ->
   exists self d a v,
     __init__ accepts line mission radius = Ok self /\
     distance self = Some d /\
     area self = Some a /\
     av_deviation self = Some v).
Proof.
  intros self0. split; [|split].
  - apply init_rejected.
  - intros Hp ->. apply init_empty_line. exact Hp.
  - intros Hp Hne.
    destruct line as [|p rest]; [contradiction|].
    destruct (getitem_last_cons p rest) as [q Hq].
    eexists. eexists. eexists. eexists. split.
    + apply (init_result accepts p q rest mission radius Hq Hp).
    + split; [reflexivity|]. split; reflexivity.
Qed.

Lemma track_lengths_not_checked_witness :
  create_polygons shapely_accepts (read_segments (fresh 1) [origin] [origin])
  = Raise ValueError /\
  __init__ shapely_accepts [origin] [origin] 1 = Raise ValueError /\
  create_polygons shapely_accepts (read_segments (fresh 1) [] [])
  = Ok (read_segments (fresh 1) [] []) /\
  __init__ shapely_accepts [] [] 1 = Raise IndexError /\
  create_polygons shapely_accepts (read_segments (fresh 1) meridian_line [])
  = Ok (read_segments (fresh 1) meridian_line []) /\
  meridian_line <> [] /\
  exists self d a v,
    __init__ shapely_accepts meridian_line [] 1 = Ok self /\
    distance self = Some d /\
    area self = Some a /\
    av_deviation self = Some v.
Proof.
  split; [reflexivity|]. split.
  { apply (track_lengths_not_checked shapely_accepts [origin] [origin] 1).
    reflexivity. }
  split; [reflexivity|]. split.
  { apply (track_lengths_not_checked shapely_accepts [] [] 1);
      reflexivity. }
  split; [reflexivity|]. split; [discriminate|].
  apply (track_lengths_not_checked shapely_accepts meridian_line [] 1);
    [reflexivity | discriminate].
Defined.

(** * Further properties of the code *)

(** ** What read_segments stores *)

Lemma combine_fst_snd {A B : Type} (l : list (A * B)) :
  combine (map fst l) (map snd l) = l.
Proof.
  induction l as [|[a b] l IH]; simpl; [reflexivity | now rewrite IH].
Qed.

(** The out-and-back lists kept for the plots: each is its track followed
    by the same track reversed, so it reads the same in both directions, has
    twice the length of the track, and ends at the point it starts at. *)
Theorem plot_lists_out_and_back (line mission : list GPXTrackPoint)
    (radius : R) :
  let self := read_segments (fresh radius) line mission in
  lon_lat_line self = map lon_lat line ++ rev (map lon_lat line) /\
  lon_lat_mission self = map lon_lat mission ++ rev (map lon_lat mission) /\
  rev (lon_lat_line self) = lon_lat_line self /\
  rev (lon_lat_mission self) = lon_lat_mission self /\
  length (lon_lat_line self) = (2 * length line)%nat /\
  length (lon_lat_mission self) = (2 * length mission)%nat /\
  getitem_last (lon_lat_line self) = getitem_first (lon_lat_line self) /\
  getitem_last (lon_lat_mission self) = getitem_first (lon_lat_mission self).
Proof.
  intros self.
  assert (Hl : lon_lat_line self
               = map lon_lat line ++ rev (map lon_lat line))
    by (unfold self, read_segments; cbn [lon_lat_line fresh app];
        rewrite map_rev; reflexivity).
  assert (Hm : lon_lat_mission self
               = map lon_lat mission ++ rev (map lon_lat mission))
    by (unfold self, read_segments; cbn [lon_lat_mission fresh app];
        rewrite map_rev; reflexivity).
  assert (Hrl : rev (lon_lat_line self) = lon_lat_line self)
    by (rewrite Hl, rev_app_distr, rev_involutive; reflexivity).
  assert (Hrm : rev (lon_lat_mission self) = lon_lat_mission self)
    by (rewrite Hm, rev_app_distr, rev_involutive; reflexivity).
  split; [exact Hl|]. split; [exact Hm|].
  split; [exact Hrl|]. split; [exact Hrm|].
  split; [rewrite Hl, length_app, length_rev, length_map; lia|].
  split; [rewrite Hm, length_app, length_rev, length_map; lia|].
  split.
  - rewrite <- Hrl at 1. apply getitem_last_rev.
  - rewrite <- Hrm at 1. apply getitem_last_rev.
Qed.

(** The longitude and latitude arrays are the two projections of the
    boundary ring: they have the same length, which is the number of points
    of the two tracks plus one for the closing point when the planned track
    is not empty, and zipping them gives the ring back. *)
Theorem coordinate_arrays_of_ring (line mission : list GPXTrackPoint)
    (radius : R) :
  let self := read_segments (fresh radius) line mission in
  combine (lon_polygon self) (lat_polygon self) = lon_lat_polygon self /\
  length (lon_polygon self) = length (lat_polygon self) /\
  length (lat_polygon self)
  = (length line + length mission + Nat.min 1 (length line))%nat.
Proof.
  intros self.
  assert (Hlon : lon_polygon self = map fst (lon_lat_polygon self))
    by reflexivity.
  assert (Hlat : lat_polygon self = map snd (lon_lat_polygon self))
    by reflexivity.
  rewrite Hlon, Hlat, combine_fst_snd, !length_map.
  split; [reflexivity|]. split; [reflexivity|].
  unfold self. rewrite read_segments_polygon. unfold BoundaryPolygon.
  rewrite !length_app, length_rev, !length_map.
  destruct line; simpl; lia.
Qed.

(** ** Ranges of the angles *)

Lemma atan_nonneg (t : R) : 0 <= t -> 0 <= atan t.
Proof.
  intros [Ht | <-].
  - rewrite <- atan_0. apply Rlt_le, atan_increasing. exact Ht.
  - rewrite atan_0. lra.
Qed.

(** With both arguments non-negative the angle lies in the first
    quadrant. *)
Lemma arctan2_first_quadrant (y x : R) :
  0 <= y -> 0 <= x -> 0 <= arctan2 y x <= PI / 2.
Proof.
  intros Hy Hx. pose proof PI_RGT_0 as HPI.
  destruct (Rlt_dec 0 x) as [Hpos | Hnpos].
  - rewrite arctan2_right by exact Hpos.
    pose proof (atan_bound (y / x)) as Hb.
    assert (Hq : 0 <= y / x).
    { apply Rmult_le_pos; [exact Hy|].
      apply Rlt_le, Rinv_0_lt_compat, Hpos. }
    pose proof (atan_nonneg _ Hq). lra.
  - assert (Hx0 : x = 0) by lra. subst x.
    destruct (Rlt_dec 0 y) as [Hypos | Hynpos].
    + rewrite arctan2_up by exact Hypos. lra.
    + assert (Hy0 : y = 0) by lra. subst y.
      rewrite arctan2_origin. lra.
Qed.

Lemma central_angle_range (a : R) :
  0 <= 2 * arctan2 (sqrt a) (sqrt (1 - a)) <= PI.
Proof.
  pose proof (arctan2_first_quadrant (sqrt a) (sqrt (1 - a))
                (sqrt_pos a) (sqrt_pos (1 - a))).
  lra.
Qed.

(** ** A bound on the sum of the integrands *)

Lemma length_pairwise {A B : Type} (f : A -> A -> B) (l : list A) :
  length (pairwise f l) = (length l - 1)%nat.
Proof.
  induction l as [|x l IH]; [reflexivity|].
  destruct l as [|y l]; [reflexivity|].
  change (pairwise f (x :: y :: l)) with (f x y :: pairwise f (y :: l)).
  simpl length in *. rewrite IH. lia.
Qed.

Lemma sum_bound (B : R) (l : list R) :
  Forall (fun x => Rabs x <= B) l -> Rabs (sum l) <= B * INR (length l).
Proof.
  induction 1 as [|x l Hx Hl IH].
  - rewrite sum_nil, Rabs_R0. simpl. lra.
  - rewrite sum_cons. change (length (x :: l)) with (S (length l)).
    rewrite S_INR. pose proof (Rabs_triang x (sum l)). lra.
Qed.

Lemma Forall_pairwise {A B : Type} (P : B -> Prop) (f : A -> A -> B)
    (l : list A) :
  (forall x y, P (f x y)) -> Forall P (pairwise f l).
Proof.
  intros H. induction l as [|x l IH]; [constructor|].
  destruct l as [|y l]; [constructor|].
  change (pairwise f (x :: y :: l)) with (f x y :: pairwise f (y :: l)).
  constructor; [apply H | exact IH].
Qed.

Lemma edge_integrand_bound (p q : R * R) :
  Rabs (edge_integrand p q) <= 2 * PI.
Proof.
  unfold edge_integrand, edge_delta. rewrite Rabs_mult.
  set (m := colatitude_of p + (colatitude_of q - colatitude_of p) / 2).
  set (d := azimuth_of q - azimuth_of p).
  pose proof (COS_bound m) as [Hc1 Hc2].
  pose proof (normalise_bounds d) as [Hn1 Hn2].
  pose proof PI_RGT_0 as HPI.
  assert (H1 : Rabs (1 - cos m) <= 2) by (apply Rabs_le; lra).
  assert (H2 : Rabs (normalise d) <= PI) by (apply Rabs_le; lra).
  pose proof (Rabs_pos (1 - cos m)). pose proof (Rabs_pos (normalise d)).
  apply Rmult_le_compat; assumption.
Qed.

(** Each integrand is at most [2 pi] in absolute value, so the sum over a
    ring is at most [2 pi] times the number of its edges; the reported
    area is therefore bounded below, and is not negative for a ring of at
    most two edges. *)
Theorem line_integral_bound (ring : list (R * R)) (radius : R) :
  let s := line_integral (lats_of ring) (lons_of ring) in
  let edges := INR (length ring - 1) in
  Rabs s <= 2 * PI * edges /\
  Rmin 0 (1 - edges / 2) * 4 * PI * radius ^ 2 <= area_of_integral s radius.
Proof.
  intros s edges.
  assert (Hs : Rabs s <= 2 * PI * edges).
  { unfold s, edges. rewrite line_integral_edges.
    rewrite <- (length_pairwise edge_integrand ring).
    apply sum_bound, Forall_pairwise, edge_integrand_bound. }
  split; [exact Hs|].
  unfold area_of_integral. pose proof PI_RGT_0 as HPI.
  set (f := Rabs s / (4 * PI)).
  assert (Hf0 : 0 <= f).
  { unfold f. apply Rmult_le_pos; [apply Rabs_pos|].
    apply Rlt_le, Rinv_0_lt_compat. lra. }
  assert (Hf1 : f <= edges / 2).
  { unfold f. apply (Rmult_le_reg_r (4 * PI)); [lra|].
    replace (Rabs s / (4 * PI) * (4 * PI)) with (Rabs s) by (field; lra).
    lra. }
  assert (Hm : Rmin 0 (1 - edges / 2) <= Rmin f (1 - f)).
  { apply Rmin_glb.
    - pose proof (Rmin_l 0 (1 - edges / 2)). lra.
    - pose proof (Rmin_r 0 (1 - edges / 2)). lra. }
  assert (Hr : 0 <= radius ^ 2) by (simpl; nra).
  apply Rmult_le_compat_r; [exact Hr|].
  apply Rmult_le_compat_r; [lra|].
  apply Rmult_le_compat_r; lra.
Qed.

(** ** The normalisation of the azimuth differences *)

Lemma normalise_floor (d : R) :
  normalise d = d - IZR (Zfloor ((d + PI) / (2 * PI))) * (2 * PI).
Proof. unfold normalise, py_mod. lra. Qed.

(** ** The total azimuth change around a closed ring *)

Lemma sum_azimuth_deltas (az : list R) (a b : R) :
  getitem_first az = Ok a -> getitem_last az = Ok b ->
  exists k : Z, sum (azimuth_deltas az) = b - a - IZR k * (2 * PI).
Proof.
  revert a. induction az as [|x az IH]; intros a Hf Hl; [discriminate|].
  inversion Hf; subst x.
  destruct az as [|y az].
  - inversion Hl; subst b. exists 0%Z.
    unfold azimuth_deltas. simpl. rewrite sum_nil. lra.
  - change (getitem_last (a :: y :: az)) with (getitem_last (y :: az)) in Hl.
    destruct (IH y eq_refl Hl) as [k Hk].
    exists (k + Zfloor ((y - a + PI) / (2 * PI)))%Z.
    change (azimuth_deltas (a :: y :: az))
      with (normalise (y - a) :: azimuth_deltas (y :: az)).
    rewrite sum_cons, Hk, normalise_floor, plus_IZR. lra.
Qed.

Lemma azimuths_of_ring (ring : list (R * R)) :
  azimuths (lats_of ring) (lons_of ring) = map azimuth_of ring.
Proof.
  unfold azimuths, lats_of, lons_of.
  rewrite !map_map, elementwise_map. reflexivity.
Qed.

(** Around the boundary ring of a planned track that has a point, the
    azimuth deltas add up to a whole number of turns. *)
Theorem azimuth_deltas_whole_turns (first : GPXTrackPoint)
    (rest mission : list GPXTrackPoint) :
  exists k : Z,
    sum (daz_of (BoundaryPolygon (first :: rest) mission))
    = IZR k * (2 * PI).
Proof.
  unfold daz_of. rewrite azimuths_of_ring.
  destruct (sum_azimuth_deltas
              (map azimuth_of (BoundaryPolygon (first :: rest) mission))
              (azimuth_of (lon_lat first)) (azimuth_of (lon_lat first)))
    as [k Hk].
  - apply getitem_first_map, BoundaryPolygon_first.
  - apply getitem_last_map, BoundaryPolygon_last.
  - exists (- k)%Z. rewrite Hk, opp_IZR. lra.
Qed.

(** ** A region and its complement *)

(** Line 147 cannot tell a region from its complement: a sum of integrands
    [s] and the sum [4 pi - |s|] of the rest of the sphere give the same
    area. *)
Theorem complement_has_same_area (s radius : R) :
  Rabs s <= 4 * PI ->
  area_of_integral (4 * PI - Rabs s) radius = area_of_integral s radius.
Proof.
  intros Hs. unfold area_of_integral. pose proof PI_RGT_0 as HPI.
  pose proof (Rabs_pos s) as Hp.
  rewrite (Rabs_pos_eq (4 * PI - Rabs s)) by lra.
  replace ((4 * PI - Rabs s) / (4 * PI)) with (1 - Rabs s / (4 * PI))
    by (field; lra).
  replace (1 - (1 - Rabs s / (4 * PI))) with (Rabs s / (4 * PI)) by lra.
  rewrite Rmin_comm. reflexivity.
Qed.

Lemma complement_has_same_area_witness :
  Rabs (PI) <= 4 * PI /\
  area_of_integral (4 * PI - Rabs PI) 1 = area_of_integral PI 1.
Proof.
  assert (H : Rabs PI <= 4 * PI)
    by (pose proof PI_RGT_0; rewrite Rabs_pos_eq; lra).
  split; [exact H | exact (complement_has_same_area PI 1 H)].
Defined.

(** ** The distance along a meridian and along the equator *)

Lemma central_angle_first_quadrant (u : R) :
  0 <= u <= PI / 2 -> arctan2 (sin u) (cos u) = u.
Proof.
  intros [Hlo Hhi]. pose proof PI_RGT_0 as HPI.
  destruct (Rle_lt_or_eq_dec u (PI / 2) Hhi) as [Hlt | ->].
  - assert (Hc : 0 < cos u) by (apply cos_gt_0; lra).
    rewrite arctan2_right by exact Hc.
    change (sin u / cos u) with (tan u).
    apply atan_tan. lra.
  - rewrite sin_PI2, cos_PI2. apply arctan2_up. lra.
Qed.

(** When the haversine term is the squared sine of half an angle of at most
    half a turn, the central angle is that angle. *)
Lemma central_angle_of_sine (t : R) :
  - (PI / 2) <= t <= PI / 2 ->
  2 * arctan2 (sqrt (sin t ^ 2)) (sqrt (1 - sin t ^ 2)) = 2 * Rabs t.
Proof.
  intros [Hlo Hhi]. pose proof PI_RGT_0 as HPI.
  assert (Hs : sqrt (sin t ^ 2) = sin (Rabs t)).
  { rewrite <- Rsqr_pow2, sqrt_Rsqr_abs.
    destruct (Rle_dec 0 t) as [Hp | Hn].
    - rewrite (Rabs_pos_eq t) by exact Hp.
      apply Rabs_pos_eq, sin_ge_0; lra.
    - rewrite (Rabs_left t) by lra. rewrite sin_neg.
      apply Rabs_left1. rewrite <- (Ropp_involutive t), sin_neg.
      assert (0 <= sin (- t)) by (apply sin_ge_0; lra). lra. }
  assert (Hc : sqrt (1 - sin t ^ 2) = cos (Rabs t)).
  { replace (1 - sin t ^ 2) with (Rsqr (cos t))
      by (rewrite cos2, Rsqr_pow2; reflexivity).
    rewrite sqrt_Rsqr by (apply cos_ge_0; lra).
    unfold Rabs. destruct (Rcase_abs t); [rewrite cos_neg|]; reflexivity. }
  rewrite Hs, Hc, central_angle_first_quadrant; [reflexivity|].
  split; [apply Rabs_pos | apply Rabs_le; lra].
Qed.

Lemma Rabs_le_bounds (a b : R) : Rabs a <= b -> - b <= a <= b.
Proof. unfold Rabs. destruct (Rcase_abs a); lra. Qed.

Lemma haversine_meridian (lat_1 lat_2 lon radius : R) :
  Rabs (lat_2 - lat_1) <= PI ->
  haversine lat_1 lon lat_2 lon radius = radius * Rabs (lat_2 - lat_1).
Proof.
  intros H. unfold haversine.
  replace ((lon - lon) / 2) with 0 by lra. rewrite sin_0.
  replace (sin ((lat_2 - lat_1) / 2) ^ 2 + cos lat_1 * cos lat_2 * 0 ^ 2)
    with (sin ((lat_2 - lat_1) / 2) ^ 2) by ring.
  apply Rabs_le_bounds in H.
  rewrite central_angle_of_sine by lra.
  replace ((lat_2 - lat_1) / 2) with ((lat_2 - lat_1) * / 2) by lra.
  rewrite Rabs_mult, (Rabs_pos_eq (/ 2)) by lra. lra.
Qed.

Lemma haversine_equator (lon_1 lon_2 radius : R) :
  Rabs (lon_2 - lon_1) <= PI ->
  haversine 0 lon_1 0 lon_2 radius = radius * Rabs (lon_2 - lon_1).
Proof.
  intros H. unfold haversine.
  replace ((0 - 0) / 2) with 0 by lra. rewrite sin_0, cos_0.
  replace (0 ^ 2 + 1 * 1 * sin ((lon_2 - lon_1) / 2) ^ 2)
    with (sin ((lon_2 - lon_1) / 2) ^ 2) by ring.
  apply Rabs_le_bounds in H.
  rewrite central_angle_of_sine by lra.
  replace ((lon_2 - lon_1) / 2) with ((lon_2 - lon_1) * / 2) by lra.
  rewrite Rabs_mult, (Rabs_pos_eq (/ 2)) by lra. lra.
Qed.

Lemma deg2rad_Rabs_minus (x y : R) :
  Rabs (deg2rad y - deg2rad x) = deg2rad (Rabs (y - x)).
Proof.
  unfold deg2rad. pose proof PI_RGT_0 as HPI.
  replace (y * (PI / 180) - x * (PI / 180)) with ((y - x) * (PI / 180))
    by lra.
  rewrite Rabs_mult, (Rabs_pos_eq (PI / 180)) by lra. reflexivity.
Qed.

Lemma deg2rad_half_turn (x : R) : x <= 180 -> deg2rad x <= PI.
Proof. unfold deg2rad. pose proof PI_RGT_0 as HPI. intros H. nra. Qed.

(** When the two ends of the planned line have the same longitude and
    latitudes at most 180 degrees apart (as all valid latitudes are), the
    distance is the radius times the latitude difference in radians. *)
Theorem distance_along_meridian (first last : GPXTrackPoint)
    (rest : list GPXTrackPoint) (radius : R) :
  getitem_last (first :: rest) = Ok last ->
  longitude first = longitude last ->
  Rabs (latitude last - latitude first) <= 180 ->
  line_distance (first :: rest) radius
  = Ok (radius * deg2rad (Rabs (latitude last - latitude first))).
Proof.
  intros Hl Hlon Hlat.
  unfold line_distance. cbn [getitem_first bind]. rewrite Hl. cbn [bind].
  rewrite Hlon, haversine_meridian, deg2rad_Rabs_minus; [reflexivity|].
  rewrite deg2rad_Rabs_minus. apply deg2rad_half_turn, Hlat.
Qed.

Lemma distance_along_meridian_witness :
  getitem_last meridian_line = Ok (mkPoint 0 2) /\
  longitude (mkPoint 0 0) = longitude (mkPoint 0 2) /\
  Rabs (latitude (mkPoint 0 2) - latitude (mkPoint 0 0)) <= 180 /\
  line_distance meridian_line 1
  = Ok (1 * deg2rad (Rabs (latitude (mkPoint 0 2) - latitude (mkPoint 0 0)))).
Proof.
  assert (H : Rabs (latitude (mkPoint 0 2) - latitude (mkPoint 0 0)) <= 180)
    by (simpl; rewrite Rabs_pos_eq; lra).
  split; [reflexivity|]. split; [reflexivity|]. split; [exact H|].
  exact (distance_along_meridian (mkPoint 0 0) (mkPoint 0 2)
           [mkPoint 0 1; mkPoint 0 2] 1 eq_refl eq_refl H).
Defined.

(** When the two ends of the planned line lie on the equator, at most 180
    degrees of longitude apart, the distance is the radius times the
    longitude difference in radians. *)
Theorem distance_along_equator (first last : GPXTrackPoint)
    (rest : list GPXTrackPoint) (radius : R) :
  getitem_last (first :: rest) = Ok last ->
  latitude first = 0 -> latitude last = 0 ->
  Rabs (longitude last - longitude first) <= 180 ->
  line_distance (first :: rest) radius
  = Ok (radius * deg2rad (Rabs (longitude last - longitude first))).
Proof.
  intros Hl Hf0 Hl0 Hlon.
  unfold line_distance. cbn [getitem_first bind]. rewrite Hl. cbn [bind].
  rewrite Hf0, Hl0, deg2rad_0, haversine_equator, deg2rad_Rabs_minus;
    [reflexivity|].
  rewrite deg2rad_Rabs_minus. apply deg2rad_half_turn, Hlon.
Qed.

Lemma distance_along_equator_witness :
  getitem_last quarter_line = Ok (mkPoint 90 0) /\
  latitude (mkPoint 0 0) = 0 /\ latitude (mkPoint 90 0) = 0 /\
  Rabs (longitude (mkPoint 90 0) - longitude (mkPoint 0 0)) <= 180 /\
  line_distance quarter_line 1
  = Ok (1 * deg2rad (Rabs (longitude (mkPoint 90 0)
                           - longitude (mkPoint 0 0)))).
Proof.
  assert (H : Rabs (longitude (mkPoint 90 0) - longitude (mkPoint 0 0))
              <= 180)
    by (simpl; rewrite Rabs_pos_eq; lra).
  split; [reflexivity|]. split; [reflexivity|]. split; [reflexivity|].
  split; [exact H|].
  exact (distance_along_equator (mkPoint 0 0) (mkPoint 90 0)
           [mkPoint 90 0] 1 eq_refl eq_refl eq_refl H).
Defined.

(** ** The outcomes of the distance computation *)

(** The distance computation raises [IndexError] on a planned track with no
    point and nothing else; a track of a single point has distance 0. *)
Theorem line_distance_outcome (radius : R) :
  line_distance [] radius = Raise IndexError /\
  (forall p, line_distance [p] radius = Ok 0) /\
  (forall p rest, exists d, line_distance (p :: rest) radius = Ok d).
Proof.
  split; [reflexivity|]. split.
  - intros p. rewrite (line_distance_ends [p] radius p p) by reflexivity.
    rewrite spec_distance_same. reflexivity.
  - intros p rest. destruct (getitem_last_cons p rest) as [q Hq].
    eexists. apply (line_distance_ends _ radius p q); [reflexivity | exact Hq].
Qed.

(** ** The haversine distance is the great-circle distance *)

Lemma sin_half_sqr (x : R) : sin (x / 2) ^ 2 = (1 - cos x) / 2.
Proof.
  replace (cos x) with (cos (2 * (x / 2))) by (f_equal; lra).
  rewrite cos_2a_sin. simpl pow. lra.
Qed.

(** One minus twice the haversine term is the scalar product of the two
    position vectors. *)
Lemma haversine_term_cosine (lat_1 lon_1 lat_2 lon_2 : R) :
  1 - 2 * haversine_term lat_1 lon_1 lat_2 lon_2
  = sin lat_1 * sin lat_2 + cos lat_1 * cos lat_2 * cos (lon_2 - lon_1).
Proof.
  unfold haversine_term. rewrite !sin_half_sqr, cos_minus. lra.
Qed.

Lemma haversine_term_range (lat_1 lon_1 lat_2 lon_2 : R) :
  - (PI / 2) <= lat_1 <= PI / 2 -> - (PI / 2) <= lat_2 <= PI / 2 ->
  0 <= haversine_term lat_1 lon_1 lat_2 lon_2 <= 1.
Proof.
  intros [H1 H1'] [H2 H2'].
  pose proof (cos_ge_0 lat_1 H1 H1') as Hc1.
  pose proof (cos_ge_0 lat_2 H2 H2') as Hc2.
  assert (HC : 0 <= cos lat_1 * cos lat_2) by (apply Rmult_le_pos; assumption).
  unfold haversine_term. rewrite !sin_half_sqr, cos_minus.
  pose proof (COS_bound (lon_2 - lon_1)) as [Hl Hl'].
  pose proof (COS_bound (lat_2 - lat_1)) as [Hd Hd'].
  pose proof (COS_bound (lat_1 + lat_2)) as [Hs Hs'].
  rewrite cos_minus in Hd, Hd'. rewrite cos_plus in Hs, Hs'.
  set (C := cos lat_1 * cos lat_2) in *.
  set (S := sin lat_1 * sin lat_2) in *.
  set (L := cos (lon_2 - lon_1)) in *.
  replace (cos lat_2 * cos lat_1) with C in * by (unfold C; ring).
  replace (sin lat_2 * sin lat_1) with S in * by (unfold S; ring).
  assert (HCL : 0 <= C * (1 - L)) by (apply Rmult_le_pos; lra).
  assert (HCL' : C * (1 - L) <= C * 2)
    by (apply Rmult_le_compat_l; lra).
  split; lra.
Qed.

Lemma sin_sqr_arctan2 (a : R) :
  0 <= a <= 1 -> sin (arctan2 (sqrt a) (sqrt (1 - a))) ^ 2 = a.
Proof.
  intros [Ha0 Ha1].
  destruct (Rle_lt_or_eq_dec a 1 Ha1) as [Hlt | ->].
  - assert (Hx : 0 < sqrt (1 - a)) by (apply sqrt_lt_R0; lra).
    rewrite arctan2_right by exact Hx.
    set (t := sqrt a / sqrt (1 - a)).
    pose proof (atan_bound t) as Hb.
    assert (Hc : 0 < cos (atan t)) by (apply cos_gt_0; lra).
    pose proof (tan_atan t) as Ht. unfold tan in Ht.
    assert (Hs : sin (atan t) = t * cos (atan t)).
    { rewrite <- Ht at 2. field. lra. }
    pose proof (sin2_cos2 (atan t)) as H1. unfold Rsqr in H1.
    assert (Ht2 : t * t * (1 - a) = a).
    { unfold t.
      pose proof (sqrt_sqrt a Ha0) as Hsa.
      assert (Hsb : sqrt (1 - a) * sqrt (1 - a) = 1 - a)
        by (apply sqrt_sqrt; lra).
      replace (sqrt a / sqrt (1 - a) * (sqrt a / sqrt (1 - a)) * (1 - a))
        with (sqrt a * sqrt a * ((1 - a) / (sqrt (1 - a) * sqrt (1 - a))))
        by (field; lra).
      rewrite Hsa, Hsb. field. lra. }
    simpl pow. rewrite Rmult_1_r.
    set (s := sin (atan t)) in *. set (c := cos (atan t)) in *.
    assert (Hss : s * s = t * t * (c * c)) by (rewrite Hs; ring).
    assert (Hcc : c * c = 1 - s * s) by lra.
    rewrite Hcc in Hss.
    assert (H3 : s * s * (1 - a) = t * t * (1 - a) * (1 - s * s))
      by (rewrite Hss at 1; ring).
    rewrite Ht2 in H3. lra.
  - replace (1 - 1) with 0 by lra.
    rewrite sqrt_0, sqrt_1, arctan2_up by lra.
    rewrite sin_PI2. ring.
Qed.

(** For two positions in radians with latitudes between a quarter turn south
    and a quarter turn north: the haversine term stays in [[0, 1]], and the
    central angle is the angle in [[0, pi]] whose cosine is the scalar
    product of the two position vectors. *)
Lemma haversine_central_angle (lat_1 lon_1 lat_2 lon_2 radius : R) :
  - (PI / 2) <= lat_1 <= PI / 2 -> - (PI / 2) <= lat_2 <= PI / 2 ->
  let a := haversine_term lat_1 lon_1 lat_2 lon_2 in
  let c := 2 * arctan2 (sqrt a) (sqrt (1 - a)) in
  0 <= a <= 1 /\
  haversine lat_1 lon_1 lat_2 lon_2 radius = radius * c /\
  0 <= c <= PI /\
  cos c = sin lat_1 * sin lat_2 + cos lat_1 * cos lat_2 * cos (lon_2 - lon_1).
Proof.
  intros H1 H2 a c.
  assert (Ha : 0 <= a <= 1) by (apply haversine_term_range; assumption).
  split; [exact Ha|]. split; [reflexivity|].
  split; [apply central_angle_range|].
  unfold c. rewrite cos_2a_sin.
  pose proof (sin_sqr_arctan2 a Ha) as Hs. simpl pow in Hs.
  rewrite Rmult_1_r in Hs.
  rewrite Rmult_assoc, Hs.
  apply haversine_term_cosine.
Qed.

Lemma deg2rad_quarter_turn (x : R) :
  - 90 <= x <= 90 -> - (PI / 2) <= deg2rad x <= PI / 2.
Proof. unfold deg2rad. pose proof PI_RGT_0 as HPI. intros H. nra. Qed.

(** For a planned line between two valid points that are not nearly antipodal
    (the haversine term is at most [1 - antipode_margin]), the haversine
    term is not negative and the distance is the radius times the angle in
    [[0, pi]] whose cosine is the scalar product of the two position
    vectors: the great-circle distance between the end points. *)
Theorem distance_is_great_circle (first last : GPXTrackPoint)
    (rest : list GPXTrackPoint) (radius : R) :
  getitem_last (first :: rest) = Ok last ->
  GeoPoint_valid (lon_lat first) -> GeoPoint_valid (lon_lat last) ->
  let lat_1 := deg2rad (latitude first) in
  let lon_1 := deg2rad (longitude first) in
  let lat_2 := deg2rad (latitude last) in
  let lon_2 := deg2rad (longitude last) in
  haversine_term lat_1 lon_1 lat_2 lon_2 <= 1 - antipode_margin ->
  exists c,
    line_distance (first :: rest) radius = Ok (radius * c) /\
    0 <= haversine_term lat_1 lon_1 lat_2 lon_2 /\
    0 <= c <= PI /\
    cos c
    = sin lat_1 * sin lat_2 + cos lat_1 * cos lat_2 * cos (lon_2 - lon_1).
Proof.
  intros Hl [_ H1] [_ H2] lat_1 lon_1 lat_2 lon_2 _.
  cbn [lon_lat snd] in H1, H2.
  destruct (haversine_central_angle lat_1 lon_1 lat_2 lon_2 radius)
    as (Ha & Hh & Hc & Hcos);
    [apply deg2rad_quarter_turn, H1 | apply deg2rad_quarter_turn, H2 |].
  eexists.
  split; [|split; [exact (proj1 Ha) | split; [exact Hc | exact Hcos]]].
  unfold line_distance. cbn [getitem_first bind]. rewrite Hl. cbn [bind].
  fold lat_1 lon_1 lat_2 lon_2. rewrite Hh. reflexivity.
Qed.

Lemma haversine_term_quarter :
  haversine_term (deg2rad 0) (deg2rad 0) (deg2rad 0) (deg2rad 90) = 1 / 2.
Proof.
  unfold haversine_term. rewrite deg2rad_0, deg2rad_90.
  replace ((0 - 0) / 2) with 0 by lra.
  replace ((PI / 2 - 0) / 2) with (PI / 4) by lra.
  rewrite sin_PI4_sqr, sin_0, cos_0. lra.
Qed.

Lemma distance_is_great_circle_witness :
  getitem_last quarter_line = Ok (mkPoint 90 0) /\
  GeoPoint_valid (lon_lat (mkPoint 0 0)) /\
  GeoPoint_valid (lon_lat (mkPoint 90 0)) /\
  haversine_term (deg2rad 0) (deg2rad 0) (deg2rad 0) (deg2rad 90)
  <= 1 - antipode_margin /\
  exists c,
    line_distance quarter_line 1 = Ok (1 * c) /\
    0 <= haversine_term (deg2rad 0) (deg2rad 0) (deg2rad 0) (deg2rad 90) /\
    0 <= c <= PI /\
    cos c
    = sin (deg2rad 0) * sin (deg2rad 0)
      + cos (deg2rad 0) * cos (deg2rad 0) * cos (deg2rad 90 - deg2rad 0).
Proof.
  assert (H1 : GeoPoint_valid (lon_lat (mkPoint 0 0)))
    by (unfold GeoPoint_valid; simpl; lra).
  assert (H2 : GeoPoint_valid (lon_lat (mkPoint 90 0)))
    by (unfold GeoPoint_valid; simpl; lra).
  assert (Ha : haversine_term (deg2rad 0) (deg2rad 0) (deg2rad 0)
                 (deg2rad 90) <= 1 - antipode_margin)
    by (rewrite haversine_term_quarter; unfold antipode_margin; lra).
  split; [reflexivity|]. split; [exact H1|]. split; [exact H2|].
  split; [exact Ha|].
  exact (distance_is_great_circle (mkPoint 0 0) (mkPoint 90 0)
           [mkPoint 90 0] 1 eq_refl H1 H2 Ha).
Defined.

Lemma colatitude_as_haversine (lat lon : R) :
  colatitude lat lon = haversine 0 0 lat lon 1.
Proof.
  unfold colatitude, haversine.
  replace (lat - 0) with lat by lra. replace (lon - 0) with lon by lra.
  rewrite cos_0, !Rmult_1_l. reflexivity.
Qed.

(** The colatitude of a point with a valid latitude is its great-circle
    angle from the origin (0, 0): it lies in [[0, pi]] and its cosine is
    [cos lat * cos lon]. *)
Theorem colatitude_is_angle_from_origin (lat lon : R) :
  - 90 <= lat <= 90 ->
  0 <= colatitude (deg2rad lat) (deg2rad lon) <= PI /\
  cos (colatitude (deg2rad lat) (deg2rad lon))
  = cos (deg2rad lat) * cos (deg2rad lon).
Proof.
  intros H. pose proof PI_RGT_0 as HPI.
  destruct (haversine_central_angle 0 0 (deg2rad lat) (deg2rad lon) 1)
    as (_ & Hh & Hc & Hcos);
    [lra | apply deg2rad_quarter_turn, H |].
  rewrite colatitude_as_haversine, Hh, Rmult_1_l.
  split; [exact Hc|].
  rewrite Hcos, sin_0, cos_0.
  replace (deg2rad lon - 0) with (deg2rad lon) by lra. ring.
Qed.

Lemma colatitude_is_angle_from_origin_witness :
  - 90 <= 0 <= 90 /\
  0 <= colatitude (deg2rad 0) (deg2rad 90) <= PI /\
  cos (colatitude (deg2rad 0) (deg2rad 90))
  = cos (deg2rad 0) * cos (deg2rad 90).
Proof.
  assert (H : - 90 <= 0 <= 90) by lra.
  split; [exact H | exact (colatitude_is_angle_from_origin 0 90 H)].
Defined.

(** ** Running the computations again *)

Lemma polygon_area_of_reading (first : GPXTrackPoint)
    (rest mission : list GPXTrackPoint) (radius : R) :
  let line := first :: rest in
  let self := read_segments (fresh radius) line mission in
  let ring := BoundaryPolygon line mission in
  polygon_area (lat_polygon self) (lon_polygon self) radius
  = Ok (area_of_integral (line_integral (lats_of ring) (lons_of ring))
          radius).
Proof.
  intros line self ring. unfold self.
  rewrite read_segments_lat, read_segments_lon.
  apply (ring_area_closed ring radius (lon_lat first) (lon_lat first)).
  - apply BoundaryPolygon_first.
  - apply BoundaryPolygon_last.
  - reflexivity.
Qed.

(** On a reader the constructor has returned, running any of the three
    computations again gives the same reader back: the stored distance, area
    and deviation are recomputed to the values they already have. *)
Theorem recomputation_is_stable (accepts : list (R * R) -> bool)
    (line mission : list GPXTrackPoint) (radius : R) (self : GpxReader) :
  __init__ accepts line mission radius = Ok self ->
  calculate_line_distance self = Ok self /\
  calculate_area self = Ok self /\
  calculate_av_deviation self = Ok self.
Proof.
  intros Hinit.
  destruct (create_polygons_cases accepts
              (read_segments (fresh radius) line mission)) as [Hp | Hp].
  2: { rewrite init_rejected in Hinit by exact Hp. discriminate. }
  destruct line as [|first rest].
  { rewrite init_empty_line in Hinit by exact Hp. discriminate. }
  destruct (getitem_last_cons first rest) as [last Hl].
  rewrite (init_result accepts first last rest mission radius Hl Hp) in Hinit.
  inversion Hinit as [Hself]. clear Hinit.
  split; [|split].
  - unfold calculate_line_distance.
    cbn [segment_line earth_radius set_av_deviation set_area set_distance
         read_segments fresh].
    rewrite (line_distance_ends (first :: rest) radius first last)
      by (try reflexivity; exact Hl).
    reflexivity.
  - unfold calculate_area.
    cbn [lat_polygon lon_polygon earth_radius set_av_deviation set_area
         set_distance].
    change (earth_radius (read_segments (fresh radius) (first :: rest)
                            mission)) with radius.
    rewrite polygon_area_of_reading. reflexivity.
  - reflexivity.
Qed.

Lemma recomputation_is_stable_witness :
  exists self,
    __init__ shapely_accepts quarter_line quarter_line 1 = Ok self /\
    calculate_line_distance self = Ok self /\
    calculate_area self = Ok self /\
    calculate_av_deviation self = Ok self.
Proof.
  eexists. split.
  - apply (init_result shapely_accepts (mkPoint 0 0) (mkPoint 90 0)
             [mkPoint 90 0] quarter_line 1); reflexivity.
  - apply (recomputation_is_stable shapely_accepts quarter_line quarter_line 1).
    apply (init_result shapely_accepts (mkPoint 0 0) (mkPoint 90 0)
             [mkPoint 90 0] quarter_line 1); reflexivity.
Defined.
